(** * classifier.py: residual / squeeze-excitation encoder stacks and the
      object classifier, as a shallow embedding.

    The Python file assembles [torch.nn] layers into blocks.  Three things
    are modelled:

    - construction ([__init__] and the class body of [backends]) in a
      state-and-exception monad: the state is the registry of parameters,
      which numbers the layers that own parameters, so that every layer
      object has its own identity;
    - the forward passes, written once, over an interface [TensorRuntime]
      that stands for the tensor library (convolution, batch normalisation,
      linear layers, pooling, [view], broadcasting arithmetic);
    - the size rules of those library operations ([conv2d_size] and the
      like), which a runtime has to obey ([ShapeLawful]).

    Python integers are [Z]; [//] and [%] are [Z.div] and [Z.modulo], which
    round like Python's, with the zero divisor raised explicitly. *)

From stdpp Require Import base option list strings gmap.
From Stdlib Require Import ZArith QArith Lia.

Local Open Scope Z_scope.

(** ** Exceptions and results *)

(** [AttributeError], [ZeroDivisionError], [ValueError] and [IndexError] are
    raised by the Python code of the file itself (attribute lookup, [//],
    tuple unpacking, [size(0)]); [TorchError] stands for any exception raised
    inside the tensor library. *)
Inductive exn :=
  | AttributeError
  | ZeroDivisionError
  | ValueError
  | IndexError
  | TorchError.

Inductive result (A : Type) :=
  | Ok (a : A)
  | Err (e : exn).
Arguments Ok {A} a.
Arguments Err {A} e.

#[global] Instance result_ret : MRet result := @Ok.
#[global] Instance result_bind : MBind result := λ A B f m,
  match m with Ok a => f a | Err e => Err e end.
#[global] Instance result_fmap : FMap result := λ A B f m,
  match m with Ok a => Ok (f a) | Err e => Err e end.

Definition is_Ok {A} (r : result A) : bool :=
  match r with Ok _ => true | Err _ => false end.

(** ** Construction monad *)

(** How the parameters of a layer were initialised after the layer's own
    constructor: by [nn.init.normal_], or from a state dict loaded from a
    file. *)
Inductive init_kind :=
  | NormalInit (mean std : Q)
  | LoadedFrom (file : string).

(** The registry of parameters: layers that own parameters are numbered in
    the order in which they are built, [next] is the number of the next one,
    and [reinit] records the layers whose parameters were overwritten after
    their construction. *)
Record registry := Registry {
  next : nat;
  reinit : gmap nat init_kind
}.

Definition M (A : Type) : Type := registry → result (A * registry).

#[global] Instance M_ret : MRet M := λ A a st, Ok (a, st).
#[global] Instance M_bind : MBind M := λ A B f m st,
  match m st with Ok (a, st') => f a st' | Err e => Err e end.
#[global] Instance M_fmap : FMap M := λ A B f m st,
  match m st with Ok (a, st') => Ok (f a, st') | Err e => Err e end.

Definition raise {A} (e : exn) : M A := λ _, Err e.
Definition lift {A} (r : result A) : M A := λ st,
  match r with Ok a => Ok (a, st) | Err e => Err e end.

(** A layer that owns parameters registers them when it is built. *)
Definition new_parameters : M nat := λ st,
  Ok (next st, Registry (S (next st)) (reinit st)).

Definition overwrite (how : init_kind) (p : nat) : M () := λ st,
  Ok ((), Registry (next st) (<[p := how]> (reinit st))).

(** [nn.init.normal_(param, mean, std)] on the parameters of layer [p]. *)
Definition normal_ (mean std : Q) : nat → M () := overwrite (NormalInit mean std).

Fixpoint for_each {A} (f : A → M ()) (l : list A) : M () :=
  match l with
  | [] => mret ()
  | a :: l => f a ≫= λ _, for_each f l
  end.

(** Python's [a // b]. *)
Definition floordiv (a b : Z) : result Z :=
  if b =? 0 then Err ZeroDivisionError else Ok (a / b).

(** ** Library layers ([torch.nn]) *)

(** A constructor of the library checks its arguments and allocates the
    parameters.  The checks are modelled; the allocation is taken to be
    granted.  The library refuses a size that does not fit 64 bits or the
    memory of the machine, so a layer of an arbitrarily large width exists
    in the model only: the theorems that state that a construction succeeds
    fix the widths or bound them by 512, the largest width of the file. *)

Module Conv2d.
Record t := mk {
  in_channels : Z;
  out_channels : Z;
  kernel_size : Z * Z;
  stride : Z * Z;
  padding : Z * Z;
  groups : Z;
  bias : bool;
  params : nat
}.
End Conv2d.

Module BatchNorm2d.
Record t := mk {
  num_features : Z;
  training : bool;
  params : nat
}.
End BatchNorm2d.

Module Linear.
Record t := mk {
  in_features : Z;
  out_features : Z;
  params : nat
}.
End Linear.

(** An integer argument of [nn.Conv2d] stands for a square. *)
Definition _pair (k : Z) : Z * Z := (k, k).

(** [nn.Conv2d(in_channels, out_channels, kernel_size, stride, padding,
    groups=groups, bias=bias)].  The constructor rejects a non-positive
    [groups] and channel counts that [groups] does not divide; allocating the
    weight of shape [(out_channels, in_channels // groups, kh, kw)] rejects a
    negative size.  The stride is not looked at before the forward pass. *)
Definition Conv2d_init (in_channels out_channels : Z) (kernel_size stride padding : Z * Z)
    (groups : Z) (bias : bool) : M Conv2d.t :=
  if (groups <=? 0) || negb (in_channels `mod` groups =? 0)
       || negb (out_channels `mod` groups =? 0)
  then raise TorchError
  else if (out_channels <? 0) || (in_channels / groups <? 0)
            || (kernel_size.1 <? 0) || (kernel_size.2 <? 0)
  then raise TorchError
  else
    p ← new_parameters;
    mret (Conv2d.mk in_channels out_channels kernel_size stride padding groups bias p).

(** [nn.BatchNorm2d(num_features)]; a module is in training mode when it is
    built. *)
Definition BatchNorm2d_init (num_features : Z) : M BatchNorm2d.t :=
  if num_features <? 0 then raise TorchError
  else
    p ← new_parameters;
    mret (BatchNorm2d.mk num_features true p).

(** [nn.Linear(in_features, out_features)]: a weight of shape
    [(out_features, in_features)]; a zero width is accepted (initialising a
    tensor without elements does nothing), a negative one is not. *)
Definition Linear_init (in_features out_features : Z) : M Linear.t :=
  if (in_features <? 0) || (out_features <? 0) then raise TorchError
  else
    p ← new_parameters;
    mret (Linear.mk in_features out_features p).

(** The layers that the file puts into an [nn.Sequential].  [LFlatten] is the
    file's own [Flatten] class. *)
Inductive Layer :=
  | LConv2d (c : Conv2d.t)
  | LBatchNorm2d (b : BatchNorm2d.t)
  | LReLU
  | LSigmoid
  | LLinear (l : Linear.t)
  | LAdaptiveAvgPool2d (output_size : Z * Z)
  | LFlatten.

(** [module.parameters()], at the granularity of layers. *)
Definition Layer_parameters (l : Layer) : list nat :=
  match l with
  | LConv2d c => [Conv2d.params c]
  | LBatchNorm2d b => [BatchNorm2d.params b]
  | LLinear l => [Linear.params l]
  | LReLU | LSigmoid | LAdaptiveAvgPool2d _ | LFlatten => []
  end.

Definition Sequential_parameters (ls : list Layer) : list nat :=
  ls ≫= Layer_parameters.

(** ** The blocks of the file: records and constructors *)

(** Python default arguments are [option] arguments here, [None] meaning
    that the caller left the argument out. *)

Module SqueezeExcitationBlock.
Record t := mk {
  reduced_channel_size : Z;
  block : list Layer
}.
End SqueezeExcitationBlock.

Definition SqueezeExcitationBlock_init (in_channels : Z) (reduction_ratio : option Z)
    : M SqueezeExcitationBlock.t :=
  let reduction_ratio := default 16 reduction_ratio in
  reduced_channel_size ← lift (floordiv in_channels reduction_ratio);
  fc1 ← Linear_init in_channels reduced_channel_size;
  fc2 ← Linear_init reduced_channel_size in_channels;
  mret (SqueezeExcitationBlock.mk reduced_channel_size
          [LAdaptiveAvgPool2d (1, 1); LFlatten; LLinear fc1; LReLU; LLinear fc2; LSigmoid]).

Module BasicBlock.
Record t := mk {
  in_channels : Z;
  out_channels : Z;
  conv1 : list Layer;
  conv2 : list Layer
}.
End BasicBlock.

Definition BasicBlock_init (in_channels out_channels : Z) (stride groups : option Z)
    : M BasicBlock.t :=
  let stride := default 1 stride in
  let groups := default 1 groups in
  c1 ← Conv2d_init in_channels out_channels (_pair 3) (_pair stride) (_pair 1) groups false;
  b1 ← BatchNorm2d_init out_channels;
  c2 ← Conv2d_init out_channels out_channels (_pair 3) (_pair 1) (_pair 1) groups false;
  b2 ← BatchNorm2d_init out_channels;
  mret (BasicBlock.mk in_channels out_channels
          [LConv2d c1; LBatchNorm2d b1; LReLU]
          [LConv2d c2; LBatchNorm2d b2]).

Module BottleneckBlock.
Record t := mk {
  in_channels : Z;
  out_channels : Z;
  conv1 : list Layer;
  conv2 : list Layer;
  conv3 : list Layer
}.
End BottleneckBlock.

Definition BottleneckBlock_init (in_channels out_channels : Z)
    (stride groups mid_channels : option Z) : M BottleneckBlock.t :=
  let stride := default 1 stride in
  let groups := default 1 groups in
  let mid_channels := default (in_channels / 2) mid_channels in
  c1 ← Conv2d_init in_channels mid_channels (_pair 1) (_pair 1) (_pair 0) 1 false;
  b1 ← BatchNorm2d_init out_channels;
  c2 ← Conv2d_init mid_channels mid_channels (_pair 3) (_pair stride) (_pair 1) groups false;
  b2 ← BatchNorm2d_init mid_channels;
  c3 ← Conv2d_init mid_channels out_channels (_pair 1) (_pair 1) (_pair 0) 1 false;
  b3 ← BatchNorm2d_init out_channels;
  mret (BottleneckBlock.mk in_channels out_channels
          [LConv2d c1; LBatchNorm2d b1; LReLU]
          [LConv2d c2; LBatchNorm2d b2; LReLU]
          [LConv2d c3; LBatchNorm2d b3]).

(** What [ResidualBlock] holds in [self.block]: one of the two transform
    blocks of the file, or a module supplied by the caller, taken here to be
    an [nn.Sequential] of library layers. *)
Inductive Transform :=
  | TBasic (b : BasicBlock.t)
  | TBottleneck (b : BottleneckBlock.t)
  | TSequential (ls : list Layer).

(** [ResNeXtBlock] inherits from [ResidualBlock] and overrides [forward]. *)
Inductive residual_class := ResidualBlock_cls | ResNeXtBlock_cls.

Module ResidualBlock.
Record t := mk {
  cls : residual_class;
  in_channels : Z;
  out_channels : Z;
  downsample : option (list Layer);
  block : Transform
}.
End ResidualBlock.

Definition ResidualBlock_init_as (cls : residual_class) (in_channels out_channels : Z)
    (block : option Transform) : M ResidualBlock.t :=
  let stride := if bool_decide (in_channels ≠ out_channels) then 2 else 1 in
  downsample ←
    (if bool_decide (stride ≠ 1) then
       c ← Conv2d_init in_channels out_channels (_pair 1) (_pair stride) (_pair 0) 1 false;
       b ← BatchNorm2d_init out_channels;
       mret (Some [LConv2d c; LBatchNorm2d b])
     else mret None);
  block ←
    match block with
    | None => TBasic <$> BasicBlock_init in_channels out_channels (Some stride) None
    | Some b => mret b
    end;
  mret (ResidualBlock.mk cls in_channels out_channels downsample block).

Definition ResidualBlock_init : Z → Z → option Transform → M ResidualBlock.t :=
  ResidualBlock_init_as ResidualBlock_cls.

(** The arguments of the [BottleneckBlock] call are evaluated before
    [ResidualBlock.__init__] runs. *)
Definition ResNeXtBlock_init (in_channels out_channels : Z) (cardinality : option Z)
    : M ResidualBlock.t :=
  let cardinality := default 32 cardinality in
  mid_channels ← lift (floordiv in_channels 2);
  stride ← lift (floordiv in_channels out_channels);
  bottleneck ← BottleneckBlock_init in_channels out_channels
                  (Some stride) (Some cardinality) (Some mid_channels);
  ResidualBlock_init_as ResNeXtBlock_cls in_channels out_channels (Some (TBottleneck bottleneck)).

Module SE_ResModule.
Record t := mk {
  block : ResidualBlock.t;
  se_block : SqueezeExcitationBlock.t
}.
End SE_ResModule.

Definition SE_ResModule_init (block : ResidualBlock.t) (reduction_ratio : option Z)
    : M SE_ResModule.t :=
  let reduction_ratio := default 16 reduction_ratio in
  se_block ← SqueezeExcitationBlock_init (ResidualBlock.out_channels block) (Some reduction_ratio);
  mret (SE_ResModule.mk block se_block).

(** ** The encoder stacks *)

(** The members of an encoder [nn.Sequential]. *)
Inductive Stage :=
  | SConv2d (c : Conv2d.t)
  | SResidual (b : ResidualBlock.t)
  | SSE (m : SE_ResModule.t).

(** [nn.Conv2d(3, 3, (1, 1))]: stride 1, no padding, one group, with bias. *)
Definition stem : M Stage :=
  SConv2d <$> Conv2d_init 3 3 (1, 1) (_pair 1) (_pair 0) 1 true.

Definition plain (in_channels out_channels : Z) : M Stage :=
  SResidual <$> ResidualBlock_init in_channels out_channels None.

Definition se_plain (in_channels out_channels : Z) : M Stage :=
  b ← ResidualBlock_init in_channels out_channels None;
  SSE <$> SE_ResModule_init b None.

Definition se_next (in_channels out_channels : Z) (cardinality : option Z) : M Stage :=
  b ← ResNeXtBlock_init in_channels out_channels cardinality;
  SSE <$> SE_ResModule_init b None.

(** [nn.Sequential(m1, ..., mn)]: the members are built from left to right. *)
Fixpoint Sequential {A} (ms : list (M A)) : M (list A) :=
  match ms with
  | [] => mret []
  | m :: ms => a ← m; l ← Sequential ms; mret (a :: l)
  end.

(** The class body of [backends], run once when the file is imported: the
    attributes of the class, by name. *)
Definition backends_init : M (gmap string (list Stage)) :=
  resnet ← Sequential
    [stem; plain 3 64; plain 64 128; plain 128 256; plain 256 256; plain 256 512];
  se_resnet ← Sequential
    [stem; se_plain 3 64; se_plain 64 128; se_plain 128 256; se_plain 256 256;
     se_plain 256 512];
  se_resneXt ← Sequential
    [stem; se_next 3 64 (Some 1); se_next 64 128 None; se_next 128 256 None;
     se_next 256 256 None; se_next 256 512 None];
  mret (<["se_resneXt" := se_resneXt]>
        (<["se_resnet" := se_resnet]>
         (<["resnet" := resnet]> ∅))).

(** Attribute lookup on a class. *)
Definition getattr {A} (namespace : gmap string A) (name : string) : result A :=
  match namespace !! name with
  | Some a => Ok a
  | None => Err AttributeError
  end.

(** ** Size rules of the tensor library *)

(** One spatial extent through a convolution with kernel [k], stride [s] and
    zero padding [p] (dilation 1): the stride must be positive, the padding
    not negative and the padded input at least as large as the kernel. *)
Definition conv_out (h k s p : Z) : result Z :=
  if (s <=? 0) || (p <? 0) || (h + 2 * p <? k) then Err TorchError
  else Ok ((h + 2 * p - k) / s + 1).

(** [Conv2d.forward]: the channel count of a batched [(B,C,H,W)] or unbatched
    [(C,H,W)] input has to be [in_channels]. *)
Definition conv2d_size (c : Conv2d.t) (s : list Z) : result (list Z) :=
  let spatial (ch h w : Z) (pre : list Z) : result (list Z) :=
    if bool_decide (ch = Conv2d.in_channels c) then
      h' ← conv_out h (Conv2d.kernel_size c).1 (Conv2d.stride c).1 (Conv2d.padding c).1;
      w' ← conv_out w (Conv2d.kernel_size c).2 (Conv2d.stride c).2 (Conv2d.padding c).2;
      Ok (pre ++ [Conv2d.out_channels c; h'; w'])
    else Err TorchError in
  match s with
  | [b; ch; h; w] => spatial ch h w [b]
  | [ch; h; w] => spatial ch h w []
  | _ => Err TorchError
  end.

(** [BatchNorm2d.forward]: a 4-D input with [num_features] channels; in
    training mode more than one value per channel is required. *)
Definition batch_norm_size (b : BatchNorm2d.t) (s : list Z) : result (list Z) :=
  match s with
  | [n; ch; h; w] =>
      if negb (bool_decide (ch = BatchNorm2d.num_features b)) then Err TorchError
      else if BatchNorm2d.training b && (n * h * w =? 1) then Err TorchError
      else Ok s
  | _ => Err TorchError
  end.

(** [Linear.forward]: the last extent has to be [in_features] and becomes
    [out_features]. *)
Definition linear_size (l : Linear.t) (s : list Z) : result (list Z) :=
  match last s with
  | Some n =>
      if bool_decide (n = Linear.in_features l)
      then Ok (removelast s ++ [Linear.out_features l])
      else Err TorchError
  | None => Err TorchError
  end.

(** [AdaptiveAvgPool2d(output_size).forward]: a 3-D or 4-D input whose
    extents after the first are not empty. *)
Definition adaptive_avg_pool2d_size (output_size : Z * Z) (s : list Z) : result (list Z) :=
  match s with
  | [b; ch; h; w] =>
      if (0 <? ch) && (0 <? h) && (0 <? w)
      then Ok [b; ch; output_size.1; output_size.2] else Err TorchError
  | [ch; h; w] =>
      if (0 <? h) && (0 <? w)
      then Ok [ch; output_size.1; output_size.2] else Err TorchError
  | _ => Err TorchError
  end.

Definition numel (s : list Z) : Z := foldr Z.mul 1 s.

(** [Tensor.view] with a target shape: the element count is kept; one extent may be
    given as [-1] and is then inferred, which is refused when the other
    extents multiply to zero.  [view] never copies, so the library refuses,
    besides, an input whose strides do not fit the target shape.  Sizes do
    not tell: the rule is that of a contiguous input, which is what the file
    applies [view] to inside its modules (the output of a pooling layer, and
    of a linear layer followed by a sigmoid). *)
Definition view_size (shape : list Z) (s : list Z) : result (list Z) :=
  let known := filter (λ d, d ≠ -1) shape in
  if forallb (λ d, -1 <=? d) shape then
    match (length shape - length known)%nat with
    | O => if numel shape =? numel s then Ok shape else Err TorchError
    | S O =>
        if (numel known =? 0) || negb (numel s `mod` numel known =? 0) then Err TorchError
        else Ok ((λ d, if d =? -1 then numel s / numel known else d) <$> shape)
    | _ => Err TorchError
    end
  else Err TorchError.

(** Broadcasting of two sizes, aligned at their last extents. *)
Fixpoint broadcast_rev (a b : list Z) : result (list Z) :=
  match a, b with
  | [], l | l, [] => Ok l
  | x :: a, y :: b =>
      if bool_decide (x = y) || bool_decide (y = 1) then cons x <$> broadcast_rev a b
      else if bool_decide (x = 1) then cons y <$> broadcast_rev a b
      else Err TorchError
  end.

Definition broadcast (a b : list Z) : result (list Z) :=
  reverse <$> broadcast_rev (reverse a) (reverse b).

(** [a * b]. *)
Definition mul_size (a b : list Z) : result (list Z) := broadcast a b.

(** [a += b]: the broadcast size has to be the size of [a], which is updated
    in place. *)
Definition iadd_size (a b : list Z) : result (list Z) :=
  s ← broadcast a b;
  if bool_decide (s = a) then Ok a else Err TorchError.

(** ** The tensor library as an interface *)

Class TensorRuntime := {
  Tensor : Type;
  size : Tensor → list Z;
  conv2d : Conv2d.t → Tensor → result Tensor;
  batch_norm : BatchNorm2d.t → Tensor → result Tensor;
  linear : Linear.t → Tensor → result Tensor;
  adaptive_avg_pool2d : Z * Z → Tensor → result Tensor;
  view : list Z → Tensor → result Tensor;
  relu : Tensor → Tensor;
  sigmoid : Tensor → Tensor;
  mul : Tensor → Tensor → result Tensor;
  iadd : Tensor → Tensor → result Tensor
}.

(** A runtime obeys the size rules: an operation succeeds exactly when its
    rule does, with a result of the size the rule gives. *)
Class ShapeLawful (RT : TensorRuntime) : Prop := {
  size_conv2d c t : size <$> conv2d c t = conv2d_size c (size t);
  size_batch_norm b t : size <$> batch_norm b t = batch_norm_size b (size t);
  size_linear l t : size <$> linear l t = linear_size l (size t);
  size_adaptive_avg_pool2d o t :
    size <$> adaptive_avg_pool2d o t = adaptive_avg_pool2d_size o (size t);
  size_view shape t : size <$> view shape t = view_size shape (size t);
  size_relu t : size (relu t) = size t;
  size_sigmoid t : size (sigmoid t) = size t;
  size_mul a b : size <$> mul a b = mul_size (size a) (size b);
  size_iadd a b : size <$> iadd a b = iadd_size (size a) (size b)
}.

(** The runtime that keeps sizes only. *)
#[global] Instance ShapeRuntime : TensorRuntime := {|
  Tensor := list Z;
  size := id;
  conv2d := conv2d_size;
  batch_norm := batch_norm_size;
  linear := linear_size;
  adaptive_avg_pool2d := adaptive_avg_pool2d_size;
  view := view_size;
  relu := id;
  sigmoid := id;
  mul := mul_size;
  iadd := iadd_size
|}.

(** The runtime that keeps, with the size, the graph of operations that
    produced a tensor (what the library records for differentiation). *)
Inductive graph :=
  | GInput (name : string)
  | GConv2d (c : Conv2d.t) (x : graph)
  | GBatchNorm (b : BatchNorm2d.t) (x : graph)
  | GLinear (l : Linear.t) (x : graph)
  | GAdaptiveAvgPool2d (output_size : Z * Z) (x : graph)
  | GView (shape : list Z) (x : graph)
  | GReLU (x : graph)
  | GSigmoid (x : graph)
  | GMul (x y : graph)
  | GAdd (x y : graph).

Record traced := Traced { traced_size : list Z; traced_graph : graph }.

Definition trace1 (rule : list Z → result (list Z)) (node : graph → graph) (t : traced)
    : result traced :=
  s ← rule (traced_size t); Ok (Traced s (node (traced_graph t))).

Definition trace2 (rule : list Z → list Z → result (list Z)) (node : graph → graph → graph)
    (a b : traced) : result traced :=
  s ← rule (traced_size a) (traced_size b);
  Ok (Traced s (node (traced_graph a) (traced_graph b))).

Definition GraphRuntime : TensorRuntime := {|
  Tensor := traced;
  size := traced_size;
  conv2d c := trace1 (conv2d_size c) (GConv2d c);
  batch_norm b := trace1 (batch_norm_size b) (GBatchNorm b);
  linear l := trace1 (linear_size l) (GLinear l);
  adaptive_avg_pool2d o := trace1 (adaptive_avg_pool2d_size o) (GAdaptiveAvgPool2d o);
  view shape := trace1 (view_size shape) (GView shape);
  relu t := Traced (traced_size t) (GReLU (traced_graph t));
  sigmoid t := Traced (traced_size t) (GSigmoid (traced_graph t));
  mul := trace2 mul_size GMul;
  iadd := trace2 iadd_size GAdd
|}.

(** ** Forward passes *)

Section Forward.
Context {RT : TensorRuntime}.

(** [input.size(0)]. *)
Definition size0 (input : Tensor) : result Z :=
  match size input with
  | b :: _ => Ok b
  | [] => Err IndexError
  end.

(** [Flatten.forward]: [input.view(input.size(0), -1)]. *)
Definition Flatten_forward (input : Tensor) : result Tensor :=
  b ← size0 input;
  view [b; -1] input.

Definition Layer_forward (l : Layer) (X : Tensor) : result Tensor :=
  match l with
  | LConv2d c => conv2d c X
  | LBatchNorm2d b => batch_norm b X
  | LReLU => Ok (relu X)
  | LSigmoid => Ok (sigmoid X)
  | LLinear l => linear l X
  | LAdaptiveAvgPool2d o => adaptive_avg_pool2d o X
  | LFlatten => Flatten_forward X
  end.

(** [nn.Sequential.forward]: the members in order. *)
Fixpoint Sequential_forward (ls : list Layer) (X : Tensor) : result Tensor :=
  match ls with
  | [] => Ok X
  | l :: ls => Y ← Layer_forward l X; Sequential_forward ls Y
  end.

Definition SqueezeExcitationBlock_forward (self : SqueezeExcitationBlock.t) (X : Tensor)
    : result Tensor :=
  match size X with
  | [batch_size; num_channels; _; _] =>
      X ← Sequential_forward (SqueezeExcitationBlock.block self) X;
      view [batch_size; num_channels; 1; 1] X
  | _ => Err ValueError
  end.

Definition BasicBlock_forward (self : BasicBlock.t) (X : Tensor) : result Tensor :=
  X ← Sequential_forward (BasicBlock.conv1 self) X;
  X ← Sequential_forward (BasicBlock.conv2 self) X;
  Ok X.

Definition BottleneckBlock_forward (self : BottleneckBlock.t) (X : Tensor) : result Tensor :=
  X ← Sequential_forward (BottleneckBlock.conv1 self) X;
  X ← Sequential_forward (BottleneckBlock.conv2 self) X;
  X ← Sequential_forward (BottleneckBlock.conv3 self) X;
  Ok X.

(** [self.block.forward(x)] inside a residual block.  The two block classes
    of the file return a new tensor, so that the in-place [out += residual]
    after it does not write into [x].  A supplied module that hands its
    argument back would make [out] and [x] one object; tensors are values
    here, and the model does not follow that case. *)
Definition Transform_forward (block : Transform) (x : Tensor) : result Tensor :=
  match block with
  | TBasic b => BasicBlock_forward b x
  | TBottleneck b => BottleneckBlock_forward b x
  | TSequential ls => Sequential_forward ls x
  end.

(** The truth value of an [nn.Sequential] ([__len__]): it has a member. *)
Definition Sequential_bool (ls : list Layer) : bool := bool_decide (ls ≠ []).

Definition ResidualBlock_forward (self : ResidualBlock.t) (x : Tensor) : result Tensor :=
  let residual := x in
  out ← Transform_forward (ResidualBlock.block self) x;
  residual ←
    match ResidualBlock.downsample self with
    | Some downsample =>
        if Sequential_bool downsample then Sequential_forward downsample residual
        else Ok residual
    | None => Ok residual
    end;
  out ← iadd out residual;
  let out := relu out in
  Ok out.

Definition ResNeXtBlock_forward (self : ResidualBlock.t) (x : Tensor) : result Tensor :=
  let residual := x in
  out ← Transform_forward (ResidualBlock.block self) x;
  residual ←
    match ResidualBlock.downsample self with
    | Some downsample =>
        if Sequential_bool downsample then Sequential_forward downsample residual
        else Ok residual
    | None => Ok residual
    end;
  out ← iadd out residual;
  let out := relu out in
  Ok out.

(** [block.forward(X)] on an object of class [ResidualBlock] or
    [ResNeXtBlock]. *)
Definition residual_forward (block : ResidualBlock.t) (X : Tensor) : result Tensor :=
  match ResidualBlock.cls block with
  | ResidualBlock_cls => ResidualBlock_forward block X
  | ResNeXtBlock_cls => ResNeXtBlock_forward block X
  end.

Definition SE_ResModule_forward (self : SE_ResModule.t) (X : Tensor) : result Tensor :=
  let residual := X in
  res_out ← residual_forward (SE_ResModule.block self) X;
  se_out ← SqueezeExcitationBlock_forward (SE_ResModule.se_block self) res_out;
  out ← mul res_out se_out;
  residual ←
    match ResidualBlock.downsample (SE_ResModule.block self) with
    | Some downsample => Sequential_forward downsample X
    | None => Ok residual
    end;
  out ← iadd out residual;
  let out := relu out in
  Ok out.

Definition Stage_forward (m : Stage) (X : Tensor) : result Tensor :=
  match m with
  | SConv2d c => conv2d c X
  | SResidual b => residual_forward b X
  | SSE m => SE_ResModule_forward m X
  end.

Fixpoint Encoder_forward (ms : list Stage) (X : Tensor) : result Tensor :=
  match ms with
  | [] => Ok X
  | m :: ms => Y ← Stage_forward m X; Encoder_forward ms Y
  end.
End Forward.

(** ** The classifier *)

Module object_classifier.
Record t := mk {
  encoder : list Stage;
  decoder : list Layer
}.
End object_classifier.

Definition Transform_parameters (b : Transform) : list nat :=
  match b with
  | TBasic b => Sequential_parameters (BasicBlock.conv1 b ++ BasicBlock.conv2 b)
  | TBottleneck b =>
      Sequential_parameters
        (BottleneckBlock.conv1 b ++ BottleneckBlock.conv2 b ++ BottleneckBlock.conv3 b)
  | TSequential ls => Sequential_parameters ls
  end.

(** Members are visited in the order in which [__init__] assigned them. *)
Definition ResidualBlock_parameters (b : ResidualBlock.t) : list nat :=
  Sequential_parameters (default [] (ResidualBlock.downsample b))
    ++ Transform_parameters (ResidualBlock.block b).

Definition Stage_parameters (m : Stage) : list nat :=
  match m with
  | SConv2d c => [Conv2d.params c]
  | SResidual b => ResidualBlock_parameters b
  | SSE m =>
      ResidualBlock_parameters (SE_ResModule.block m)
        ++ Sequential_parameters (SqueezeExcitationBlock.block (SE_ResModule.se_block m))
  end.

Section Classifier.
(** The file system as [torch.load] sees it: whether a file holds a state
    dict that the decoder accepts. *)
Variable loadable : string → bool.

(** [self.decoder.load_state_dict(torch.load(decoderFile))]. *)
Definition load_state_dict (decoder : list Layer) (decoderFile : string) : M () :=
  if loadable decoderFile
  then for_each (overwrite (LoadedFrom decoderFile)) (Sequential_parameters decoder)
  else raise TorchError.

Definition init_encoder_weights (encoder : list Stage) (mean std : Q) : M () :=
  for_each (normal_ mean std) (encoder ≫= Stage_parameters).

Definition init_decoder_weights (decoder : list Layer) (mean std : Q) : M () :=
  for_each (normal_ mean std) (Sequential_parameters decoder).

(** [object_classifier.__init__], with the attributes of the class
    [backends] as they are after the import. *)
Definition object_classifier_init (backends : gmap string (list Stage))
    (encoder : option (list Stage)) (decoderFile : option string)
    : M object_classifier.t :=
  self_encoder ←
    match encoder with
    | Some e => mret e
    | None => lift (getattr backends "encoder_se_resnet")
    end;
  l1 ← Linear_init 512 256;
  l2 ← Linear_init 256 128;
  l3 ← Linear_init 128 64;
  l4 ← Linear_init 64 32;
  l5 ← Linear_init 32 1;
  let self_decoder :=
    [LAdaptiveAvgPool2d (1, 1); LFlatten;
     LLinear l1; LReLU; LLinear l2; LReLU; LLinear l3; LReLU; LLinear l4; LReLU;
     LLinear l5; LSigmoid] in
  _ ← (if bool_decide (encoder = None)
       then init_encoder_weights self_encoder 0 (1 # 100)
       else mret ());
  _ ← match decoderFile with
      | None => init_decoder_weights self_decoder 0 (1 # 100)
      | Some file => load_state_dict self_decoder file
      end;
  mret (object_classifier.mk self_encoder self_decoder).
End Classifier.

Section ClassifierForward.
Context {RT : TensorRuntime}.

Definition encode (self : object_classifier.t) (X : Tensor) : result Tensor :=
  Encoder_forward (object_classifier.encoder self) X.

Definition decode (self : object_classifier.t) (X : Tensor) : result Tensor :=
  Sequential_forward (object_classifier.decoder self) X.

Definition object_classifier_forward (self : object_classifier.t) (X : Tensor)
    : result Tensor :=
  encode self X ≫= decode self.
End ClassifierForward.

(** ** The forward contracts as the specification words them *)

Section Contracts.
Context {RT : TensorRuntime}.

(** "out = transform(x); residual = downsample(x) if downsample exists else
    x; result = ReLU(out + residual)". *)
Definition ResidualBlock_forward_spec (self : ResidualBlock.t) (x : Tensor)
    : result Tensor :=
  out ← Transform_forward (ResidualBlock.block self) x;
  residual ←
    match ResidualBlock.downsample self with
    | Some downsample => Sequential_forward downsample x
    | None => Ok x
    end;
  result ← iadd out residual;
  Ok (relu result).

(** "res_out = block.transform(x); gate = SqueezeExcitation(res_out);
    gated = res_out * gate; residual = block.downsample(x) if present else
    x; result = ReLU(gated + residual)". *)
Definition SE_ResModule_forward_spec (self : SE_ResModule.t) (x : Tensor)
    : result Tensor :=
  let block := SE_ResModule.block self in
  res_out ← Transform_forward (ResidualBlock.block block) x;
  gate ← SqueezeExcitationBlock_forward (SE_ResModule.se_block self) res_out;
  gated ← mul res_out gate;
  residual ←
    match ResidualBlock.downsample block with
    | Some downsample => Sequential_forward downsample x
    | None => Ok x
    end;
  result ← iadd gated residual;
  Ok (relu result).
End Contracts.

(** A named input tensor of the tracing runtime. *)
Definition input (name : string) (s : list Z) : @Tensor GraphRuntime :=
  Traced s (GInput name).

(** The module built by [build] when the registry is still empty. *)
Definition built {A} (build : M A) : result A := fst <$> build (Registry 0 ∅).

(** Readers of the graph of a gated residual output
    [ReLU (Add (Mul x gate) shortcut)]: the tensor [x] that is scaled, the
    tensor that the squeeze-excitation gate was computed from, and the
    shortcut that is added. *)
Definition gated_operand (t : traced) : option graph :=
  match traced_graph t with
  | GReLU (GAdd (GMul x _) _) => Some x
  | _ => None
  end.

Definition gate_operand (t : traced) : option graph :=
  match traced_graph t with
  | GReLU (GAdd (GMul _ (GView _ (GSigmoid (GLinear _ (GReLU (GLinear _
      (GView _ (GAdaptiveAvgPool2d _ x)))))))) _) => Some x
  | _ => None
  end.

Definition shortcut_operand (t : traced) : option graph :=
  match traced_graph t with
  | GReLU (GAdd _ r) => Some r
  | _ => None
  end.

(** ** Auxiliary definitions of the size analysis *)

(** What a stage constructor of the stacks ([plain], [se_plain]) does to a
    batch of feature maps: equal widths keep the spatial extent, different
    widths halve it (rounding up), as long as batch normalisation in
    training mode sees more than one value per channel. *)
Definition stage_rule (mk : Z → Z → M Stage) : Prop :=
  ∀ cin cout st stage st' B H W,
    mk cin cout st = Ok (stage, st') → 0 < B → 0 < cout → 1 ≤ H → 1 ≤ W →
    (cin = cout → B * H * W ≠ 1 →
       Stage_forward (RT := ShapeRuntime) stage [B; cin; H; W] = Ok [B; cout; H; W])
    ∧ (cin ≠ cout → B * ((H - 1) / 2 + 1) * ((W - 1) / 2 + 1) ≠ 1 →
         Stage_forward (RT := ShapeRuntime) stage [B; cin; H; W]
         = Ok [B; cout; (H - 1) / 2 + 1; (W - 1) / 2 + 1]).

(** What such a stage does when its output would hold a single value per
    channel. *)
Definition stage_single_rule (mk : Z → Z → M Stage) : Prop :=
  ∀ cin cout st stage st' B H W,
    mk cin cout st = Ok (stage, st') → 1 ≤ H → 1 ≤ W →
    (cin = cout → B * H * W = 1 →
       Stage_forward (RT := ShapeRuntime) stage [B; cin; H; W] = Err TorchError)
    ∧ (cin ≠ cout → B * ((H - 1) / 2 + 1) * ((W - 1) / 2 + 1) = 1 →
         Stage_forward (RT := ShapeRuntime) stage [B; cin; H; W] = Err TorchError).

(** The decoder of [object_classifier.__init__] as it is built when [n] is
    the next free parameter number. *)
Definition decoder_layers (n : nat) : list Layer :=
  [LAdaptiveAvgPool2d (1, 1); LFlatten;
   LLinear (Linear.mk 512 256 n); LReLU;
   LLinear (Linear.mk 256 128 (S n)); LReLU;
   LLinear (Linear.mk 128 64 (S (S n))); LReLU;
   LLinear (Linear.mk 64 32 (S (S (S n)))); LReLU;
   LLinear (Linear.mk 32 1 (S (S (S (S n))))); LSigmoid].

(** * Properties *)

(** ** Monad lemmas *)

(** [size] commutes with sequencing. *)
Lemma size_bind {RT : TensorRuntime} (m : result Tensor) (k : Tensor → result Tensor)
    (m' : result (list Z)) (k' : list Z → result (list Z)) :
  size <$> m = m' → (∀ t, size <$> k t = k' (size t)) →
  size <$> (m ≫= k) = m' ≫= k'.
Proof.
  intros <- Hk. destruct m as [t|e]; simpl; [apply Hk | done].
Qed.

(** ** Both runtimes obey the size rules *)

#[global] Instance ShapeRuntime_lawful : ShapeLawful ShapeRuntime.
Proof.
  split; simpl; intros; try done; by match goal with |- id <$> ?r = _ => destruct r end.
Qed.

#[global] Instance GraphRuntime_lawful : ShapeLawful GraphRuntime.
Proof.
  split; simpl; intros; try done; unfold trace1, trace2;
    match goal with |- _ <$> (?r ≫= _) = _ => by destruct r end.
Qed.

(** ** Sizes of a forward pass: any lawful runtime agrees with [ShapeRuntime] *)

Section Abstraction.
Context {RT : TensorRuntime} {lawful : ShapeLawful RT}.

Lemma size_Flatten_forward X :
  size <$> Flatten_forward X = Flatten_forward (RT := ShapeRuntime) (size X).
Proof.
  unfold Flatten_forward, size0. simpl.
  destruct (size X) as [|b s] eqn:E; simpl; [done|].
  rewrite size_view, E. done.
Qed.

Lemma size_Layer_forward l X :
  size <$> Layer_forward l X = Layer_forward (RT := ShapeRuntime) l (size X).
Proof.
  destruct l; simpl.
  - apply size_conv2d.
  - apply size_batch_norm.
  - by rewrite size_relu.
  - by rewrite size_sigmoid.
  - apply size_linear.
  - apply size_adaptive_avg_pool2d.
  - apply size_Flatten_forward.
Qed.

Lemma size_Sequential_forward ls X :
  size <$> Sequential_forward ls X = Sequential_forward (RT := ShapeRuntime) ls (size X).
Proof.
  revert X. induction ls as [|l ls IH]; intros X; simpl; [done|].
  apply size_bind; [apply size_Layer_forward | apply IH].
Qed.

Lemma size_SqueezeExcitationBlock_forward self X :
  size <$> SqueezeExcitationBlock_forward self X
  = SqueezeExcitationBlock_forward (RT := ShapeRuntime) self (size X).
Proof.
  unfold SqueezeExcitationBlock_forward. simpl.
  destruct (size X) as [|b [|c [|h [|w [|? ?]]]]] eqn:E; try done.
  apply size_bind; [by rewrite size_Sequential_forward, E | apply size_view].
Qed.

Lemma size_BasicBlock_forward self X :
  size <$> BasicBlock_forward self X = BasicBlock_forward (RT := ShapeRuntime) self (size X).
Proof.
  unfold BasicBlock_forward.
  apply size_bind; [apply size_Sequential_forward | intros Y].
  apply size_bind; [apply size_Sequential_forward | done].
Qed.

Lemma size_BottleneckBlock_forward self X :
  size <$> BottleneckBlock_forward self X
  = BottleneckBlock_forward (RT := ShapeRuntime) self (size X).
Proof.
  unfold BottleneckBlock_forward.
  apply size_bind; [apply size_Sequential_forward | intros Y].
  apply size_bind; [apply size_Sequential_forward | intros Z].
  apply size_bind; [apply size_Sequential_forward | done].
Qed.

Lemma size_Transform_forward block x :
  size <$> Transform_forward block x = Transform_forward (RT := ShapeRuntime) block (size x).
Proof.
  destruct block; simpl.
  - apply size_BasicBlock_forward.
  - apply size_BottleneckBlock_forward.
  - apply size_Sequential_forward.
Qed.

Lemma size_ResidualBlock_forward self x :
  size <$> ResidualBlock_forward self x
  = ResidualBlock_forward (RT := ShapeRuntime) self (size x).
Proof.
  unfold ResidualBlock_forward.
  apply size_bind; [apply size_Transform_forward | intros out].
  apply size_bind.
  { destruct (ResidualBlock.downsample self) as [d|]; [|done].
    destruct (Sequential_bool d); [apply size_Sequential_forward | done]. }
  intros residual.
  apply size_bind; [apply size_iadd | intros out'; simpl; by rewrite size_relu].
Qed.

Lemma size_residual_forward block X :
  size <$> residual_forward block X = residual_forward (RT := ShapeRuntime) block (size X).
Proof.
  unfold residual_forward. destruct (ResidualBlock.cls block);
    apply size_ResidualBlock_forward.
Qed.

Lemma size_SE_ResModule_forward self X :
  size <$> SE_ResModule_forward self X
  = SE_ResModule_forward (RT := ShapeRuntime) self (size X).
Proof.
  unfold SE_ResModule_forward.
  apply size_bind; [apply size_residual_forward | intros res_out].
  apply size_bind; [apply size_SqueezeExcitationBlock_forward | intros se_out].
  apply size_bind; [apply size_mul | intros out].
  apply size_bind.
  { destruct (ResidualBlock.downsample _); [apply size_Sequential_forward | done]. }
  intros residual.
  apply size_bind; [apply size_iadd | intros out'; simpl; by rewrite size_relu].
Qed.

Lemma size_Stage_forward m X :
  size <$> Stage_forward m X = Stage_forward (RT := ShapeRuntime) m (size X).
Proof.
  destruct m; simpl.
  - apply size_conv2d.
  - apply size_residual_forward.
  - apply size_SE_ResModule_forward.
Qed.

Lemma size_Encoder_forward ms X :
  size <$> Encoder_forward ms X = Encoder_forward (RT := ShapeRuntime) ms (size X).
Proof.
  revert X. induction ms as [|m ms IH]; intros X; simpl; [done|].
  apply size_bind; [apply size_Stage_forward | apply IH].
Qed.

Lemma size_object_classifier_forward self X :
  size <$> object_classifier_forward self X
  = object_classifier_forward (RT := ShapeRuntime) self (size X).
Proof.
  unfold object_classifier_forward, encode, decode.
  apply size_bind; [apply size_Encoder_forward | apply size_Sequential_forward].
Qed.

Lemma size_Ok (r : result Tensor) s :
  size <$> r = Ok s → ∃ Y, r = Ok Y ∧ size Y = s.
Proof. destruct r as [Y|e]; simpl; [intros [= <-]; eauto | done]. Qed.

Lemma size_Err (r : result Tensor) e : size <$> r = Err e → r = Err e.
Proof. destruct r; simpl; congruence. Qed.
End Abstraction.

(** ** The encoder stacks *)

Lemma M_bind_Ok {A B} (m : M A) (k : A → M B) st a st1 :
  m st = Ok (a, st1) → (m ≫= k) st = k a st1.
Proof. intros E. unfold mbind, M_bind. by rewrite E. Qed.

(** The class body of [backends] runs without an exception and binds the
    three names [resnet], [se_resnet] and [se_resneXt]. *)
Lemma backends_init_Ok st :
  ∃ resnet se_resnet se_resneXt st1 st2 st3,
    Sequential
      [stem; se_plain 3 64; se_plain 64 128; se_plain 128 256; se_plain 256 256;
       se_plain 256 512] st1 = Ok (se_resnet, st2)
    ∧ backends_init st
      = Ok (<["se_resneXt" := se_resneXt]>
              (<["se_resnet" := se_resnet]> (<["resnet" := resnet]> ∅)), st3).
Proof.
  destruct (Sequential
    [stem; plain 3 64; plain 64 128; plain 128 256; plain 256 256; plain 256 512] st)
    as [[resnet st1]|e] eqn:E1; [|vm_compute in E1; done].
  destruct (Sequential
      [stem; se_plain 3 64; se_plain 64 128; se_plain 128 256; se_plain 256 256;
       se_plain 256 512] st1) as [[se_resnet st2]|e] eqn:E2; [|vm_compute in E2; done].
  destruct (Sequential
    [stem; se_next 3 64 (Some 1); se_next 64 128 None; se_next 128 256 None;
     se_next 256 256 None; se_next 256 512 None] st2)
    as [[se_resneXt st3]|e] eqn:E3; [|vm_compute in E3; done].
  exists resnet, se_resnet, se_resneXt, st1, st2, st3.
  split; [exact E2|].
  unfold backends_init.
  rewrite (M_bind_Ok _ _ _ _ _ E1).
  rewrite (M_bind_Ok _ _ _ _ _ E2).
  rewrite (M_bind_Ok _ _ _ _ _ E3).
  reflexivity.
Qed.

(** C2, as the code has it: a [(1,3,224,224)] input comes out of
    [backends.se_resnet] with size [(1,512,14,14)], in every runtime that
    obeys the size rules: four of the five stages halve the extent. *)
Theorem se_resnet_output_size {RT : TensorRuntime} {lawful : ShapeLawful RT}
    (st : registry) (X : Tensor) :
  size X = [1; 3; 224; 224] →
  ∃ backends st' se_resnet,
    backends_init st = Ok (backends, st')
    ∧ backends !! "se_resnet" = Some se_resnet
    ∧ size <$> Encoder_forward se_resnet X = Ok [1; 512; 14; 14].
Proof.
  intros HX.
  destruct (backends_init_Ok st)
    as (resnet & se_resnet & se_resneXt & st1 & st2 & st3 & E & Hinit).
  eexists _, _, se_resnet. split; [exact Hinit|]. split.
  { by rewrite lookup_insert_ne, lookup_insert_eq. }
  rewrite size_Encoder_forward, HX.
  vm_compute in E. injection E as <- _. vm_compute. reflexivity.
Qed.

(** The size on a traced [(1,3,224,224)] input, the registry being empty at
    the import. *)
Lemma se_resnet_output_size_witness :
  ∃ backends st' se_resnet,
    backends_init (Registry 0 ∅) = Ok (backends, st')
    ∧ backends !! "se_resnet" = Some se_resnet
    ∧ size <$> Encoder_forward se_resnet (input "X" [1; 3; 224; 224]) = Ok [1; 512; 14; 14].
Proof.
  apply (se_resnet_output_size (RT := GraphRuntime) (Registry 0 ∅) (input "X" [1; 3; 224; 224])).
  reflexivity.
Defined.

(** C2, as stated, fails: the output size is not [(1,512,7,7)]. *)
Lemma se_resnet_output_is_not_7x7 :
  size <$> (backends ← built backends_init;
            se_resnet ← getattr backends "se_resnet";
            Encoder_forward se_resnet (input "X" [1; 3; 224; 224]))
  ≠ Ok [1; 512; 7; 7].
Proof. vm_compute. discriminate. Qed.

(** ** Inversion of constructions *)

Lemma M_bind_Err {A B} (m : M A) (k : A → M B) st e :
  m st = Err e → (m ≫= k) st = Err e.
Proof. intros E. unfold mbind, M_bind. by rewrite E. Qed.

Lemma M_bind_inv {A B} (m : M A) (k : A → M B) st b st' :
  (m ≫= k) st = Ok (b, st') → ∃ a st1, m st = Ok (a, st1) ∧ k a st1 = Ok (b, st').
Proof.
  unfold mbind, M_bind. destruct (m st) as [[a st1]|e]; [eauto | done].
Qed.

Lemma M_fmap_inv {A B} (f : A → B) (m : M A) st b st' :
  (f <$> m) st = Ok (b, st') → ∃ a, m st = Ok (a, st') ∧ b = f a.
Proof.
  unfold fmap, M_fmap. destruct (m st) as [[a st1]|e]; [|done].
  intros [= <- <-]. eauto.
Qed.

Lemma M_ret_inv {A} (a b : A) st st' :
  (mret a : M A) st = Ok (b, st') → b = a ∧ st' = st.
Proof. by intros [= <- <-]. Qed.

Lemma lift_inv {A} (r : result A) st a st' :
  lift r st = Ok (a, st') → r = Ok a ∧ st' = st.
Proof. unfold lift. destruct r; [by intros [= <- <-] | done]. Qed.

Lemma floordiv_inv a b q : floordiv a b = Ok q → b ≠ 0 ∧ q = a / b.
Proof.
  unfold floordiv. destruct (Z.eqb_spec b 0); [done | by intros [= <-]].
Qed.

Lemma Conv2d_init_inv i o k s p g bias st c st' :
  Conv2d_init i o k s p g bias st = Ok (c, st') →
  c = Conv2d.mk i o k s p g bias (next st)
  ∧ st' = Registry (S (next st)) (reinit st)
  ∧ 0 < g ∧ i `mod` g = 0 ∧ o `mod` g = 0.
Proof.
  unfold Conv2d_init.
  destruct (_ || _ || _) eqn:E1; [done|].
  destruct (_ || _ || _ || _) eqn:E2; [done|].
  intros [= <- <-]. split_and!; try done.
  all: repeat (apply orb_false_elim in E1 as [E1 ?]); lia.
Qed.

Lemma BatchNorm2d_init_inv n st b st' :
  BatchNorm2d_init n st = Ok (b, st') →
  b = BatchNorm2d.mk n true (next st) ∧ st' = Registry (S (next st)) (reinit st) ∧ 0 ≤ n.
Proof.
  unfold BatchNorm2d_init. destruct (Z.ltb_spec n 0); [done|].
  by intros [= <- <-].
Qed.

Lemma Linear_init_inv i o st l st' :
  Linear_init i o st = Ok (l, st') →
  l = Linear.mk i o (next st) ∧ st' = Registry (S (next st)) (reinit st) ∧ 0 ≤ i ∧ 0 ≤ o.
Proof.
  unfold Linear_init. destruct (Z.ltb_spec i 0), (Z.ltb_spec o 0); try done.
  by intros [= <- <-].
Qed.

(** Inversion of a successful construction, step by step. *)
Ltac inv_init :=
  repeat match goal with
  | H : (_ ≫= _) _ = Ok _ |- _ => apply M_bind_inv in H as (? & ? & ? & H)
  | H : (_ <$> _) _ = Ok _ |- _ => apply M_fmap_inv in H as (? & H & ->)
  | H : mret _ _ = Ok _ |- _ => apply M_ret_inv in H as [-> ->]
  | H : lift _ _ = Ok _ |- _ => apply lift_inv in H as [H ->]
  | H : floordiv _ _ = Ok _ |- _ => apply floordiv_inv in H as [? ->]
  | H : Conv2d_init _ _ _ _ _ _ _ _ = Ok _ |- _ =>
      apply Conv2d_init_inv in H as (-> & -> & ? & ? & ?)
  | H : BatchNorm2d_init _ _ = Ok _ |- _ => apply BatchNorm2d_init_inv in H as (-> & -> & ?)
  | H : Linear_init _ _ _ = Ok _ |- _ => apply Linear_init_inv in H as (-> & -> & ? & ?)
  end.

(** ** The classifier's constructor *)

(** C1 fails on the code: [object_classifier()] with no encoder looks up
    [backends.encoder_se_resnet], a name that the class body of [backends]
    never binds (it binds [resnet], [se_resnet] and [se_resneXt]), so the
    constructor raises [AttributeError] instead of taking the [se_resnet]
    stack. *)
Theorem object_classifier_default_encoder_fails (loadable : string → bool) (st : registry) :
  ∃ backends st',
    backends_init st = Ok (backends, st')
    ∧ backends !! "encoder_se_resnet" = None
    ∧ ∀ decoderFile st1,
        object_classifier_init loadable backends None decoderFile st1 = Err AttributeError.
Proof.
  destruct (backends_init_Ok st)
    as (resnet & se_resnet & se_resneXt & st1 & st2 & st3 & _ & Hinit).
  eexists _, _. split; [exact Hinit|].
  assert (Hno : (<["se_resneXt":=se_resneXt]> (<["se_resnet":=se_resnet]>
                   (<["resnet":=resnet]> (∅ : gmap string (list Stage)))))
                !! "encoder_se_resnet" = None).
  { by rewrite !lookup_insert_ne, lookup_empty. }
  split; [exact Hno|]. intros decoderFile st'.
  unfold object_classifier_init. apply M_bind_Err.
  unfold lift, getattr. by rewrite Hno.
Qed.

(** ** The bottleneck transform *)

(** The layers that [BottleneckBlock.__init__] builds: the batch
    normalisation after the first convolution has [out_channels] features,
    although that convolution produces [mid_channels] channels. *)
Lemma BottleneckBlock_init_inv i o stride groups mid st b st' :
  BottleneckBlock_init i o stride groups mid st = Ok (b, st') →
  ∃ c1 b1 c2 b2 c3 b3,
    b = BottleneckBlock.mk i o
          [LConv2d c1; LBatchNorm2d b1; LReLU]
          [LConv2d c2; LBatchNorm2d b2; LReLU]
          [LConv2d c3; LBatchNorm2d b3]
    ∧ c1 = Conv2d.mk i (default (i / 2) mid) (1, 1) (1, 1) (0, 0) 1 false (next st)
    ∧ b1 = BatchNorm2d.mk o true (S (next st))
    ∧ c2 = Conv2d.mk (default (i / 2) mid) (default (i / 2) mid) (3, 3)
             (default 1 stride, default 1 stride) (1, 1) (default 1 groups) false
             (S (S (next st)))
    ∧ b2 = BatchNorm2d.mk (default (i / 2) mid) true (S (S (S (next st))))
    ∧ c3 = Conv2d.mk (default (i / 2) mid) o (1, 1) (1, 1) (0, 0) 1 false
             (S (S (S (S (next st)))))
    ∧ b3 = BatchNorm2d.mk o true (S (S (S (S (S (next st)))))).
Proof.
  unfold BottleneckBlock_init. intros H. inv_init.
  eexists _, _, _, _, _, _. split; [reflexivity|]. done.
Qed.

Lemma conv_out_cases h k s p : conv_out h k s p = Err TorchError ∨ ∃ h', conv_out h k s p = Ok h'.
Proof. unfold conv_out. destruct (_ || _ || _); eauto. Qed.

Lemma conv2d_size_cases c s :
  conv2d_size c s = Err TorchError
  ∨ ∃ pre h w, conv2d_size c s = Ok (pre ++ [Conv2d.out_channels c; h; w])
               ∧ (pre = [] ∨ ∃ b, pre = [b]).
Proof.
  unfold conv2d_size.
  destruct s as [|x1 [|x2 [|x3 [|x4 [|x5 s]]]]]; auto;
    (case_bool_decide; [|auto]);
    (destruct (conv_out_cases x3 (Conv2d.kernel_size c).1 (Conv2d.stride c).1
               (Conv2d.padding c).1) as [->|[h ->]] ||
     destruct (conv_out_cases x2 (Conv2d.kernel_size c).1 (Conv2d.stride c).1
               (Conv2d.padding c).1) as [->|[h ->]]); simpl; auto;
    (destruct (conv_out_cases x4 (Conv2d.kernel_size c).2 (Conv2d.stride c).2
               (Conv2d.padding c).2) as [->|[w ->]] ||
     destruct (conv_out_cases x3 (Conv2d.kernel_size c).2 (Conv2d.stride c).2
               (Conv2d.padding c).2) as [->|[w ->]]); simpl; auto;
    right; [by exists [], h, w; eauto | by exists [x1], h, w; eauto].
Qed.

(** C3 fails on the code: when [mid_channels] (by default [in_channels // 2])
    differs from [out_channels], the forward pass of a bottleneck block raises
    on every input: the first batch normalisation was built for [out_channels]
    features and is given [mid_channels] channels. *)
Theorem BottleneckBlock_forward_fails {RT : TensorRuntime} {lawful : ShapeLawful RT}
    (in_channels out_channels : Z) (stride groups mid_channels : option Z)
    (st st' : registry) (self : BottleneckBlock.t) (X : Tensor) :
  BottleneckBlock_init in_channels out_channels stride groups mid_channels st = Ok (self, st') →
  default (in_channels / 2) mid_channels ≠ out_channels →
  BottleneckBlock_forward self X = Err TorchError.
Proof.
  intros Hinit Hne.
  apply BottleneckBlock_init_inv in Hinit
    as (c1 & b1 & c2 & b2 & c3 & b3 & -> & -> & -> & _).
  apply size_Err. rewrite size_BottleneckBlock_forward.
  unfold BottleneckBlock_forward. simpl.
  destruct (conv2d_size_cases
              (Conv2d.mk in_channels (default (in_channels / 2) mid_channels)
                 (1, 1) (1, 1) (0, 0) 1 false (next st)) (size X))
    as [->|(pre & h & w & -> & [->|[b ->]])]; simpl; [done..|].
  by rewrite bool_decide_false.
Qed.

(** [BottleneckBlock(64, 128)], whose [mid_channels] is 32, on a
    [(2,64,8,8)] input. *)
Lemma BottleneckBlock_forward_fails_witness :
  ∃ self st',
    BottleneckBlock_init 64 128 None None None (Registry 0 ∅) = Ok (self, st')
    ∧ BottleneckBlock_forward self (input "X" [2; 64; 8; 8]) = Err TorchError.
Proof.
  eexists _, _. split; [reflexivity|].
  eapply (BottleneckBlock_forward_fails (RT := GraphRuntime) 64 128 None None None);
    [reflexivity | done].
Defined.

(** ** Residual blocks *)

(** C4: the transform of [ResNeXtBlock(Cin, Cout, cardinality)] is the
    [BottleneckBlock] built with [mid_channels = Cin // 2],
    [groups = cardinality] (32 when left out) and [stride = Cin // Cout]; its
    3x3 convolution carries that width, group count and stride. *)
Theorem ResNeXtBlock_transform_configuration (in_channels out_channels : Z)
    (cardinality : option Z) (st st' : registry) (self : ResidualBlock.t) :
  ResNeXtBlock_init in_channels out_channels cardinality st = Ok (self, st') →
  ∃ bottleneck st1 c1 b1 c2 b2 c3 b3,
    BottleneckBlock_init in_channels out_channels
      (Some (in_channels / out_channels)) (Some (default 32 cardinality))
      (Some (in_channels / 2)) st = Ok (bottleneck, st1)
    ∧ ResidualBlock.block self = TBottleneck bottleneck
    ∧ BottleneckBlock.conv1 bottleneck = [LConv2d c1; LBatchNorm2d b1; LReLU]
    ∧ BottleneckBlock.conv2 bottleneck = [LConv2d c2; LBatchNorm2d b2; LReLU]
    ∧ BottleneckBlock.conv3 bottleneck = [LConv2d c3; LBatchNorm2d b3]
    ∧ Conv2d.in_channels c1 = in_channels
    ∧ Conv2d.out_channels c1 = in_channels / 2
    ∧ Conv2d.in_channels c2 = in_channels / 2
    ∧ Conv2d.out_channels c2 = in_channels / 2
    ∧ Conv2d.kernel_size c2 = (3, 3)
    ∧ Conv2d.groups c2 = default 32 cardinality
    ∧ Conv2d.stride c2 = (in_channels / out_channels, in_channels / out_channels)
    ∧ BatchNorm2d.num_features b2 = in_channels / 2
    ∧ Conv2d.in_channels c3 = in_channels / 2
    ∧ Conv2d.out_channels c3 = out_channels.
Proof.
  unfold ResNeXtBlock_init. intros H.
  apply M_bind_inv in H as (mid & st0 & Hmid & H).
  apply lift_inv in Hmid as [Hmid ->]. apply floordiv_inv in Hmid as [_ ->].
  apply M_bind_inv in H as (stride & st0 & Hs & H).
  apply lift_inv in Hs as [Hs ->]. apply floordiv_inv in Hs as [_ ->].
  apply M_bind_inv in H as (bottleneck & st1 & Hb & H).
  unfold ResidualBlock_init_as in H.
  apply M_bind_inv in H as (downsample & st2 & _ & H).
  simpl in H. injection H as <- _.
  pose proof Hb as Hb'.
  apply BottleneckBlock_init_inv in Hb'
    as (c1 & b1 & c2 & b2 & c3 & b3 & -> & -> & -> & -> & -> & -> & ->).
  eexists _, _, _, _, _, _, _, _. split; [exact Hb|]. simpl. by split_and!.
Qed.

(** [ResNeXtBlock(128, 64)]: width 64, 32 groups, stride 2. *)
Lemma ResNeXtBlock_transform_configuration_witness :
  ∃ self st',
    ResNeXtBlock_init 128 64 None (Registry 0 ∅) = Ok (self, st')
    ∧ ∃ bottleneck c2 b2,
        ResidualBlock.block self = TBottleneck bottleneck
        ∧ BottleneckBlock.conv2 bottleneck = [LConv2d c2; LBatchNorm2d b2; LReLU]
        ∧ Conv2d.in_channels c2 = 64
        ∧ Conv2d.groups c2 = 32
        ∧ Conv2d.stride c2 = (2, 2).
Proof.
  eexists _, _. split; [reflexivity|].
  destruct (ResNeXtBlock_transform_configuration 128 64 None (Registry 0 ∅) _ _ eq_refl)
    as (bottleneck & st1 & c1 & b1 & c2 & b2 & c3 & b3 & _ & Hb & _ & H2 & _ & _ & _
        & Hin & _ & _ & Hg & Hs & _).
  by exists bottleneck, c2, b2.
Defined.

(** C5: a residual block (of either class) has a downsample path exactly
    when [Cin ≠ Cout]; the path is a 1x1 convolution of stride 2 from [Cin]
    to [Cout] channels followed by batch normalisation over [Cout] features,
    and the forward pass applies it to the shortcut; when [Cin = Cout] there
    is no such path and the shortcut is the input itself. *)
Theorem ResidualBlock_downsample_iff (cls : residual_class) (in_channels out_channels : Z)
    (block : option Transform) (st st' : registry) (self : ResidualBlock.t) :
  ResidualBlock_init_as cls in_channels out_channels block st = Ok (self, st') →
  (is_Some (ResidualBlock.downsample self) ↔ in_channels ≠ out_channels)
  ∧ (in_channels ≠ out_channels →
       ∃ conv bn,
         ResidualBlock.downsample self = Some [LConv2d conv; LBatchNorm2d bn]
         ∧ conv = Conv2d.mk in_channels out_channels (1, 1) (2, 2) (0, 0) 1 false
                    (Conv2d.params conv)
         ∧ bn = BatchNorm2d.mk out_channels true (BatchNorm2d.params bn)
         ∧ ∀ (RT : TensorRuntime) (x : Tensor),
             residual_forward self x
             = (out ← Transform_forward (ResidualBlock.block self) x;
                residual ← (Y ← conv2d conv x; batch_norm bn Y);
                out ← iadd out residual;
                Ok (relu out)))
  ∧ (in_channels = out_channels →
       ResidualBlock.downsample self = None
       ∧ ∀ (RT : TensorRuntime) (x : Tensor),
           residual_forward self x
           = (out ← Transform_forward (ResidualBlock.block self) x;
              out ← iadd out x;
              Ok (relu out))).
Proof.
  unfold ResidualBlock_init_as. intros H.
  apply M_bind_inv in H as (downsample & st1 & Hd & H).
  apply M_bind_inv in H as (block' & st2 & _ & H).
  apply M_ret_inv in H as [-> ->]. simpl.
  destruct (decide (in_channels = out_channels)) as [Heq|Hne].
  - rewrite (bool_decide_false (in_channels ≠ out_channels)) in Hd by tauto.
    simpl in Hd. apply M_ret_inv in Hd as [-> _].
    split; [split; [by intros [? ?] | done]|]. split; [done|]. intros _.
    split; [done|]. intros RT x. unfold residual_forward. by destruct cls.
  - rewrite (bool_decide_true (in_channels ≠ out_channels)) in Hd by done.
    simpl in Hd. inv_init.
    split; [split; [done | by eexists]|]. split; [|done]. intros _.
    eexists _, _. split; [reflexivity|]. split; [done|]. split; [done|].
    intros RT x. unfold residual_forward.
    destruct cls; unfold ResidualBlock_forward, ResNeXtBlock_forward; simpl.
    all: destruct (Transform_forward block' x) as [out|]; simpl; [|done].
    all: destruct (conv2d _ x) as [Y|]; simpl; [|done].
    all: by destruct (batch_norm _ Y).
Qed.

(** [ResidualBlock(64, 128)] has a downsample path. *)
Lemma ResidualBlock_downsample_iff_witness :
  ∃ self st',
    ResidualBlock_init 64 128 None (Registry 0 ∅) = Ok (self, st')
    ∧ (is_Some (ResidualBlock.downsample self) ↔ (64 : Z) ≠ 128).
Proof.
  eexists _, _. split; [reflexivity|].
  exact (proj1 (ResidualBlock_downsample_iff ResidualBlock_cls 64 128 None
                  (Registry 0 ∅) _ _ eq_refl)).
Defined.

(** An empty [nn.Sequential] counts as false, and running it changes
    nothing: testing the truth value before the call makes no difference. *)
Lemma Sequential_bool_forward {RT : TensorRuntime} (downsample : list Layer) (x : Tensor) :
  (if Sequential_bool downsample then Sequential_forward downsample x else Ok x)
  = Sequential_forward downsample x.
Proof.
  unfold Sequential_bool. case_bool_decide as Hd; [done|].
  assert (downsample = []) as -> by (by destruct downsample). done.
Qed.

(** C6: the forward pass of a residual block is
    [ReLU(transform(x) + residual)], with [residual = downsample(x)] when
    the block has a downsample path and [residual = x] otherwise. *)
Theorem residual_forward_is_spec {RT : TensorRuntime} (self : ResidualBlock.t) (x : Tensor) :
  residual_forward self x = ResidualBlock_forward_spec self x.
Proof.
  unfold residual_forward, ResidualBlock_forward_spec.
  destruct (ResidualBlock.cls self); unfold ResidualBlock_forward, ResNeXtBlock_forward.
  all: destruct (Transform_forward _ x) as [out|]; simpl; [|done].
  all: destruct (ResidualBlock.downsample self) as [downsample|]; [|done].
  all: by rewrite Sequential_bool_forward.
Qed.

(** ** Squeeze-excitation *)

(** What [SqueezeExcitationBlock.__init__] returns in the model, in closed
    form. *)
Lemma SqueezeExcitationBlock_init_eq (in_channels : Z) (reduction_ratio : option Z)
    (st : registry) :
  let r := default 16 reduction_ratio in
  SqueezeExcitationBlock_init in_channels reduction_ratio st =
    if r =? 0 then Err ZeroDivisionError
    else if (in_channels <? 0) || (in_channels / r <? 0) then Err TorchError
    else Ok (SqueezeExcitationBlock.mk (in_channels / r)
               [LAdaptiveAvgPool2d (1, 1); LFlatten;
                LLinear (Linear.mk in_channels (in_channels / r) (next st)); LReLU;
                LLinear (Linear.mk (in_channels / r) in_channels (S (next st))); LSigmoid],
             Registry (S (S (next st))) (reinit st)).
Proof.
  intros r. unfold SqueezeExcitationBlock_init. fold r.
  unfold mbind at 1, M_bind at 1, lift, floordiv.
  destruct (r =? 0); [done|].
  unfold mbind at 1, M_bind at 1, Linear_init.
  destruct (in_channels <? 0) eqn:E1, (in_channels / r <? 0) eqn:E2; simpl; try done.
Qed.

(** C9, as the code has it: the constructor does not check the reduced
    width; [in_channels // reduction_ratio] goes to [nn.Linear] as it is.
    A [reduction_ratio] of 0 raises [ZeroDivisionError] (from [//]) and a
    negative layer width is refused inside [nn.Linear]; but when
    [in_channels // reduction_ratio] is 0, for [in_channels] from 1 to 512
    (the widths the file itself uses), construction succeeds, with
    [reduced_channel_size = 0] and two linear layers of width zero. *)
Theorem SqueezeExcitationBlock_init_no_width_check (in_channels : Z)
    (reduction_ratio : option Z) (st : registry) :
  let r := default 16 reduction_ratio in
  (r = 0 → SqueezeExcitationBlock_init in_channels reduction_ratio st = Err ZeroDivisionError)
  ∧ (in_channels < 0 ∨ in_channels / r < 0 →
       is_Ok (SqueezeExcitationBlock_init in_channels reduction_ratio st) = false)
  ∧ (r ≠ 0 → 1 ≤ in_channels ≤ 512 → in_channels / r = 0 →
       ∃ fc1 fc2 st',
         SqueezeExcitationBlock_init in_channels reduction_ratio st
         = Ok (SqueezeExcitationBlock.mk 0
                 [LAdaptiveAvgPool2d (1, 1); LFlatten; LLinear fc1; LReLU; LLinear fc2;
                  LSigmoid], st')
         ∧ Linear.in_features fc1 = in_channels ∧ Linear.out_features fc1 = 0
         ∧ Linear.in_features fc2 = 0 ∧ Linear.out_features fc2 = in_channels).
Proof.
  intros r. rewrite SqueezeExcitationBlock_init_eq. fold r.
  destruct (Z.eqb_spec r 0) as [Hr|Hr]; simpl.
  { split; [done|]. split; [done|]. by intros ?. }
  split; [done|].
  destruct (Z.ltb_spec in_channels 0), (Z.ltb_spec (in_channels / r) 0); simpl.
  all: split; [intros [?|?]; first [done | lia] | intros _ ? Hz; try lia].
  rewrite Hz. by eexists _, _, _.
Qed.

(** [SqueezeExcitationBlock(3)] is built, with a bottleneck of width 0. *)
Lemma SqueezeExcitationBlock_init_no_width_check_witness :
  ∃ fc1 fc2 st',
    SqueezeExcitationBlock_init 3 None (Registry 0 ∅)
    = Ok (SqueezeExcitationBlock.mk 0
            [LAdaptiveAvgPool2d (1, 1); LFlatten; LLinear fc1; LReLU; LLinear fc2;
             LSigmoid], st')
    ∧ Linear.in_features fc1 = 3 ∧ Linear.out_features fc1 = 0
    ∧ Linear.in_features fc2 = 0 ∧ Linear.out_features fc2 = 3.
Proof.
  apply (SqueezeExcitationBlock_init_no_width_check 3 None (Registry 0 ∅));
    [discriminate | lia | reflexivity].
Defined.

(** C9, as stated, fails: 3 channels with the default ratio 16 give
    [3 // 16 = 0], and the block is built. *)
Lemma SqueezeExcitationBlock_init_zero_width_succeeds :
  (3 `div` 16 = 0)
  ∧ ∃ self st',
      SqueezeExcitationBlock_init 3 None (Registry 0 ∅) = Ok (self, st')
      ∧ SqueezeExcitationBlock.reduced_channel_size self = 0.
Proof. split; [reflexivity|]. eexists _, _. split; reflexivity. Qed.

(** C7 fails on the code: [SE_ResModule.forward] calls the wrapped block's
    own [forward], which already adds the shortcut and applies ReLU, and then
    adds the shortcut a second time.  On a [(2,64,8,8)] input of
    [SE_ResModule(ResidualBlock(64, 64))] the tensor that is gated, and that
    the gate is computed from, is [ReLU(transform(X) + X)], where the
    contract has [transform(X)]. *)
Theorem SE_ResModule_forward_gates_block_output :
  let X := input "X" [2; 64; 8; 8] in
  ∃ self T out out_spec,
    built (block ← ResidualBlock_init 64 64 None; SE_ResModule_init block None) = Ok self
    ∧ Transform_forward (ResidualBlock.block (SE_ResModule.block self)) X = Ok T
    ∧ SE_ResModule_forward self X = Ok out
    ∧ SE_ResModule_forward_spec self X = Ok out_spec
    ∧ gated_operand out_spec = Some (traced_graph T)
    ∧ gate_operand out_spec = Some (traced_graph T)
    ∧ gated_operand out = Some (GReLU (GAdd (traced_graph T) (GInput "X")))
    ∧ gate_operand out = Some (GReLU (GAdd (traced_graph T) (GInput "X")))
    ∧ shortcut_operand out = Some (GInput "X")
    ∧ out ≠ out_spec.
Proof.
  intros X. eexists _, _, _, _.
  split; [vm_compute; reflexivity|].
  split; [vm_compute; reflexivity|].
  split; [vm_compute; reflexivity|].
  split; [vm_compute; reflexivity|].
  split_and!; [reflexivity.. | discriminate].
Qed.

(** The same divergence in every runtime: the code and the contract run the
    same gate-and-add step, the code on [ReLU(transform(X) + residual)], the
    contract on [transform(X)]. *)
Lemma SE_ResModule_forward_unfold {RT : TensorRuntime} (self : SE_ResModule.t) (X : Tensor) :
  let block := SE_ResModule.block self in
  let shortcut x :=
    match ResidualBlock.downsample block with
    | Some downsample => Sequential_forward downsample x
    | None => Ok x
    end in
  let gate_and_add res_out :=
    se_out ← SqueezeExcitationBlock_forward (SE_ResModule.se_block self) res_out;
    out ← mul res_out se_out;
    residual ← shortcut X;
    out ← iadd out residual;
    Ok (relu out) in
  SE_ResModule_forward self X
  = (out ← Transform_forward (ResidualBlock.block block) X;
     residual ← shortcut X;
     out ← iadd out residual;
     gate_and_add (relu out))
  ∧ SE_ResModule_forward_spec self X
    = (res_out ← Transform_forward (ResidualBlock.block block) X;
       gate_and_add res_out).
Proof.
  intros block shortcut gate_and_add. split; [|done].
  unfold SE_ResModule_forward. fold block.
  assert (residual_forward block X
          = (out ← Transform_forward (ResidualBlock.block block) X;
             residual ← shortcut X;
             out ← iadd out residual;
             Ok (relu out))) as ->.
  { unfold residual_forward, shortcut.
    destruct (ResidualBlock.cls block); unfold ResidualBlock_forward, ResNeXtBlock_forward.
    all: destruct (Transform_forward _ X) as [out|]; simpl; [|done].
    all: destruct (ResidualBlock.downsample block) as [downsample|]; [|done].
    all: by rewrite Sequential_bool_forward. }
  subst gate_and_add shortcut. simpl.
  destruct (Transform_forward _ X) as [out|]; simpl; [|done].
  destruct (ResidualBlock.downsample block) as [downsample|]; simpl.
  - destruct (Sequential_forward downsample X) as [residual|]; simpl; [|done].
    by destruct (iadd out residual).
  - by destruct (iadd out X).
Qed.

(** [Flatten] on a tensor with a non-empty batch. *)
Lemma view_size_flatten (B : Z) (s : list Z) :
  0 < B → view_size [B; -1] (B :: s) = Ok [B; numel s].
Proof.
  intros HB. unfold view_size.
  rewrite filter_cons_True, filter_cons_False, filter_nil by lia.
  assert (forallb (λ d, -1 <=? d) [B; -1] = true) as ->.
  { simpl. destruct (Z.leb_spec (-1) B); [done | lia]. }
  simpl length.
  change (numel (B :: s)) with (B * numel s). change (numel [B]) with (B * 1).
  rewrite Z.mul_1_r, (Z.mul_comm B (numel s)), Z.mod_mul, Z.div_mul by lia.
  destruct (Z.eqb_spec B 0); [lia|]. simpl.
  by destruct (Z.eqb_spec B (-1)); [lia|].
Qed.

(** [view] with a fully given target of the same element count. *)
Lemma view_size_known (shape s : list Z) :
  Forall (λ d, 0 ≤ d) shape → numel shape = numel s → view_size shape s = Ok shape.
Proof.
  intros Hpos Hn. unfold view_size.
  assert (filter (λ d, d ≠ -1) shape = shape) as ->.
  { clear Hn. induction Hpos as [|d l Hd _ IH]; [done|].
    rewrite filter_cons_True by (simpl in *; lia). by rewrite IH. }
  assert (forallb (λ d, -1 <=? d) shape = true) as ->.
  { clear Hn. induction Hpos as [|d l Hd _ IH]; [done|]. simpl. rewrite IH.
    destruct (Z.leb_spec (-1) d); [done | lia]. }
  rewrite Nat.sub_diag, Hn. by rewrite Z.eqb_refl.
Qed.

(** C8, the shape half (X3): a block built over [C] channels maps a non-empty
    [(B,C,H,W)] input to a [(B,C,1,1)] gate. *)
Lemma SqueezeExcitationBlock_forward_size {RT : TensorRuntime} {lawful : ShapeLawful RT}
    (C : Z) (reduction_ratio : option Z) (st st' : registry)
    (self : SqueezeExcitationBlock.t) (X : Tensor) (B H W : Z) :
  SqueezeExcitationBlock_init C reduction_ratio st = Ok (self, st') →
  size X = [B; C; H; W] → 0 < B → 0 < C → 0 < H → 0 < W →
  size <$> SqueezeExcitationBlock_forward self X = Ok [B; C; 1; 1].
Proof.
  intros Hinit HX HB HC HH HW.
  rewrite SqueezeExcitationBlock_init_eq in Hinit.
  destruct (_ =? 0); [done|]. destruct (_ || _); [done|].
  injection Hinit as <- _.
  rewrite size_SqueezeExcitationBlock_forward, HX.
  unfold SqueezeExcitationBlock_forward. simpl size.
  cbn [SqueezeExcitationBlock.block Sequential_forward Layer_forward].
  cbn [adaptive_avg_pool2d ShapeRuntime]. unfold adaptive_avg_pool2d_size.
  destruct (Z.ltb_spec 0 C), (Z.ltb_spec 0 H), (Z.ltb_spec 0 W); try lia.
  cbn [andb mbind result_bind fst snd].
  unfold Flatten_forward, size0. cbn [size view ShapeRuntime id mbind result_bind].
  rewrite view_size_flatten by done.
  cbn [linear relu sigmoid ShapeRuntime id mbind result_bind]. unfold linear_size.
  cbn [last removelast app Linear.in_features Linear.out_features numel foldr].
  rewrite !Z.mul_1_r, bool_decide_true by done.
  cbn [mbind result_bind last removelast app]. rewrite bool_decide_true by done.
  cbn [mbind result_bind last removelast app].
  apply view_size_known.
  - repeat constructor; lia.
  - simpl. lia.
Qed.

(** ** The classifier's forward pass *)

(** The last member of an [nn.Sequential] runs last. *)
Lemma Sequential_forward_snoc {RT : TensorRuntime} (ls : list Layer) (l : Layer) (X : Tensor) :
  Sequential_forward (ls ++ [l]) X = Sequential_forward ls X ≫= Layer_forward l.
Proof.
  revert X. induction ls as [|l' ls IH]; intros X; simpl.
  - by destruct (Layer_forward l X).
  - destruct (Layer_forward l' X) as [Y|]; simpl; [apply IH | done].
Qed.

(** C10, the statable part: the forward pass is the decoder after the
    encoder. *)
Lemma object_classifier_forward_eq {RT : TensorRuntime} (self : object_classifier.t)
    (X : Tensor) :
  object_classifier_forward self X = encode self X ≫= decode self.
Proof. reflexivity. Qed.

(** C10, the statable part (X18): the decoder of a classifier maps a non-empty
    [(B,512,h,w)] feature tensor to the sigmoid of a [(B,1)] tensor, one
    number for each member of the batch. *)
Lemma decode_size {RT : TensorRuntime} {lawful : ShapeLawful RT}
    (loadable : string → bool) (backends : gmap string (list Stage))
    (encoder : option (list Stage)) (decoderFile : option string) (st st' : registry)
    (self : object_classifier.t) (Y : Tensor) (B h w : Z) :
  object_classifier_init loadable backends encoder decoderFile st = Ok (self, st') →
  size Y = [B; 512; h; w] → 0 < B → 0 < h → 0 < w →
  ∃ Z, decode self Y = Ok (sigmoid Z) ∧ size Z = [B; 1].
Proof.
  intros Hinit HY HB Hh Hw. unfold object_classifier_init in Hinit.
  apply M_bind_inv in Hinit as (enc & st0 & _ & Hinit).
  apply M_bind_inv in Hinit as (l1 & ? & H1 & Hinit).
  apply M_bind_inv in Hinit as (l2 & ? & H2 & Hinit).
  apply M_bind_inv in Hinit as (l3 & ? & H3 & Hinit).
  apply M_bind_inv in Hinit as (l4 & ? & H4 & Hinit).
  apply M_bind_inv in Hinit as (l5 & ? & H5 & Hinit).
  apply M_bind_inv in Hinit as (? & ? & _ & Hinit).
  apply M_bind_inv in Hinit as (? & ? & _ & Hinit).
  apply M_ret_inv in Hinit as [-> _].
  inv_init. unfold decode. cbn [object_classifier.decoder].
  match goal with |- ∃ Z, Sequential_forward ?ls Y = _ ∧ _ =>
    change ls with (removelast ls ++ [LSigmoid])
  end.
  rewrite Sequential_forward_snoc. cbn [removelast].
  match goal with |- ∃ Z, ?r ≫= _ = _ ∧ _ =>
    assert (Hs : size <$> r = Ok [B; 1])
  end.
  { rewrite size_Sequential_forward, HY.
    cbn [Sequential_forward Layer_forward adaptive_avg_pool2d ShapeRuntime].
    unfold adaptive_avg_pool2d_size.
    destruct (Z.ltb_spec 0 h), (Z.ltb_spec 0 w); try lia.
    cbn [Z.ltb Z.compare andb mbind result_bind fst snd].
    unfold Flatten_forward, size0. cbn [size view ShapeRuntime id mbind result_bind].
    rewrite view_size_flatten by done. reflexivity. }
  apply size_Ok in Hs as (Z & -> & HZ). by exists Z.
Qed.

(** ** Size arithmetic of convolutions and broadcasting *)

Lemma fmap_id_result {A} (r : result A) : id <$> r = r.
Proof. by destruct r. Qed.

Lemma conv_out_3x3 (h s : Z) : 0 < s → 1 ≤ h → conv_out h 3 s 1 = Ok ((h - 1) / s + 1).
Proof.
  intros Hs Hh. unfold conv_out.
  destruct (Z.leb_spec s 0), (Z.ltb_spec 1 0), (Z.ltb_spec (h + 2 * 1) 3); try lia.
  simpl. do 3 f_equal. lia.
Qed.

Lemma conv_out_1x1 (h s : Z) : 0 < s → 1 ≤ h → conv_out h 1 s 0 = Ok ((h - 1) / s + 1).
Proof.
  intros Hs Hh. unfold conv_out.
  destruct (Z.leb_spec s 0), (Z.ltb_spec 0 0), (Z.ltb_spec (h + 2 * 0) 1); try lia.
  simpl. do 3 f_equal. lia.
Qed.

Lemma halve_bounds (h s : Z) : 0 < s → 1 ≤ h → 1 ≤ (h - 1) / s + 1 ≤ h.
Proof.
  intros Hs Hh. split.
  - assert (0 ≤ (h - 1) / s) by (apply Z.div_pos; lia). lia.
  - assert ((h - 1) / s ≤ h - 1) by (apply Z.div_le_upper_bound; [lia | nia]). lia.
Qed.

Lemma halve_again (h k : Z) : 0 < k → ((h - 1) / k + 1 - 1) / 2 + 1 = (h - 1) / (k * 2) + 1.
Proof.
  intros Hk. replace ((h - 1) / k + 1 - 1) with ((h - 1) / k) by lia.
  by rewrite Z.div_div by lia.
Qed.


Lemma conv2d_size_square (cin cout k s p g : Z) (bias : bool) (pid : nat) (B H W H' W' : Z) :
  conv_out H k s p = Ok H' → conv_out W k s p = Ok W' →
  conv2d_size (Conv2d.mk cin cout (k, k) (s, s) (p, p) g bias pid) [B; cin; H; W]
  = Ok [B; cout; H'; W'].
Proof.
  intros HH HW. unfold conv2d_size.
  cbn [Conv2d.in_channels Conv2d.out_channels Conv2d.kernel_size Conv2d.stride
       Conv2d.padding fst snd].
  rewrite bool_decide_true by done. by rewrite HH, HW.
Qed.

Lemma batch_norm_size_ok (n : Z) (pid : nat) (B H W : Z) :
  B * H * W ≠ 1 →
  batch_norm_size (BatchNorm2d.mk n true pid) [B; n; H; W] = Ok [B; n; H; W].
Proof.
  intros Hne. unfold batch_norm_size.
  cbn [BatchNorm2d.num_features BatchNorm2d.training].
  rewrite bool_decide_true by done.
  by destruct (Z.eqb_spec (B * H * W) 1).
Qed.

Lemma conv_bn_shape (cin cout k s p g : Z) (bias : bool) (pid pid' : nat)
    (B H W H' W' : Z) :
  conv_out H k s p = Ok H' → conv_out W k s p = Ok W' → B * H' * W' ≠ 1 →
  Sequential_forward (RT := ShapeRuntime)
    [LConv2d (Conv2d.mk cin cout (k, k) (s, s) (p, p) g bias pid);
     LBatchNorm2d (BatchNorm2d.mk cout true pid')]
    [B; cin; H; W]
  = Ok [B; cout; H'; W'].
Proof.
  intros HH HW Hne.
  cbn [Sequential_forward Layer_forward conv2d batch_norm ShapeRuntime].
  rewrite (conv2d_size_square _ _ _ _ _ _ _ _ _ _ _ _ _ HH HW).
  cbn [mbind result_bind]. by rewrite batch_norm_size_ok by done.
Qed.

Lemma conv_bn_relu_shape (cin cout k s p g : Z) (bias : bool) (pid pid' : nat)
    (B H W H' W' : Z) :
  conv_out H k s p = Ok H' → conv_out W k s p = Ok W' → B * H' * W' ≠ 1 →
  Sequential_forward (RT := ShapeRuntime)
    [LConv2d (Conv2d.mk cin cout (k, k) (s, s) (p, p) g bias pid);
     LBatchNorm2d (BatchNorm2d.mk cout true pid'); LReLU]
    [B; cin; H; W]
  = Ok [B; cout; H'; W'].
Proof.
  intros HH HW Hne.
  cbn [Sequential_forward Layer_forward conv2d batch_norm ShapeRuntime].
  rewrite (conv2d_size_square _ _ _ _ _ _ _ _ _ _ _ _ _ HH HW).
  cbn [mbind result_bind]. by rewrite batch_norm_size_ok by done.
Qed.

Lemma conv_out_3x3_same (h : Z) : 1 ≤ h → conv_out h 3 1 1 = Ok h.
Proof.
  intros Hh. rewrite conv_out_3x3 by lia. rewrite Z.div_1_r. f_equal. lia.
Qed.

Lemma conv_out_1x1_same (h : Z) : 1 ≤ h → conv_out h 1 1 0 = Ok h.
Proof.
  intros Hh. rewrite conv_out_1x1 by lia. rewrite Z.div_1_r. f_equal. lia.
Qed.

Lemma broadcast_rev_cons_eq (x : Z) (a b : list Z) :
  broadcast_rev (x :: a) (x :: b) = cons x <$> broadcast_rev a b.
Proof. cbn [broadcast_rev]. by rewrite bool_decide_true. Qed.

Lemma broadcast_rev_cons_1 (x : Z) (a b : list Z) :
  broadcast_rev (x :: a) (1 :: b) = cons x <$> broadcast_rev a b.
Proof.
  cbn [broadcast_rev]. rewrite (bool_decide_true (1 = 1)) by done.
  by rewrite orb_true_r.
Qed.

Lemma broadcast_rev_same (l : list Z) : broadcast_rev l l = Ok l.
Proof.
  induction l as [|x l IH]; [done|]. by rewrite broadcast_rev_cons_eq, IH.
Qed.

Lemma iadd_size_same (s : list Z) : iadd_size s s = Ok s.
Proof.
  unfold iadd_size, broadcast. rewrite broadcast_rev_same.
  cbn [fmap result_fmap mbind result_bind]. rewrite reverse_involutive.
  by rewrite bool_decide_true.
Qed.

Lemma mul_size_gate (B C H W : Z) : mul_size [B; C; H; W] [B; C; 1; 1] = Ok [B; C; H; W].
Proof.
  unfold mul_size, broadcast.
  change (reverse [B; C; H; W]) with [W; H; C; B].
  change (reverse [B; C; 1; 1]) with [1; 1; C; B].
  by rewrite !broadcast_rev_cons_1, !broadcast_rev_cons_eq.
Qed.

(** ** Sizes through the blocks *)

Lemma BasicBlock_shape (cin cout : Z) (stride groups : option Z) (st st' : registry)
    (self : BasicBlock.t) (B H W : Z) :
  BasicBlock_init cin cout stride groups st = Ok (self, st') →
  0 < default 1 stride → 1 ≤ H → 1 ≤ W →
  B * ((H - 1) / default 1 stride + 1) * ((W - 1) / default 1 stride + 1) ≠ 1 →
  BasicBlock_forward (RT := ShapeRuntime) self [B; cin; H; W]
  = Ok [B; cout; (H - 1) / default 1 stride + 1; (W - 1) / default 1 stride + 1].
Proof.
  intros Hinit Hs HH HW Hne. unfold BasicBlock_init in Hinit. inv_init.
  unfold BasicBlock_forward. cbn [BasicBlock.conv1 BasicBlock.conv2].
  pose proof (halve_bounds H _ Hs HH) as [HH1 _].
  pose proof (halve_bounds W _ Hs HW) as [HW1 _].
  rewrite (conv_bn_relu_shape _ _ _ _ _ _ _ _ _ _ _ _ _ _
             (conv_out_3x3 H _ Hs HH) (conv_out_3x3 W _ Hs HW)) by done.
  cbn [mbind result_bind].
  rewrite (conv_bn_shape _ _ _ _ _ _ _ _ _ _ _ _ _ _
             (conv_out_3x3_same _ HH1) (conv_out_3x3_same _ HW1)) by done.
  done.
Qed.

Lemma ResidualBlock_shape (cls : residual_class) (cin cout : Z) (st st' : registry)
    (self : ResidualBlock.t) (B H W : Z) :
  ResidualBlock_init_as cls cin cout None st = Ok (self, st') →
  1 ≤ H → 1 ≤ W →
  (cin = cout → B * H * W ≠ 1 →
     residual_forward (RT := ShapeRuntime) self [B; cin; H; W] = Ok [B; cout; H; W])
  ∧ (cin ≠ cout → B * ((H - 1) / 2 + 1) * ((W - 1) / 2 + 1) ≠ 1 →
       residual_forward (RT := ShapeRuntime) self [B; cin; H; W]
       = Ok [B; cout; (H - 1) / 2 + 1; (W - 1) / 2 + 1]).
Proof.
  intros Hinit HH HW. unfold ResidualBlock_init_as in Hinit.
  apply M_bind_inv in Hinit as (downsample & st1 & Hd & Hinit).
  apply M_bind_inv in Hinit as (block & st2 & Hb & Hinit).
  apply M_ret_inv in Hinit as [-> ->].
  apply M_fmap_inv in Hb as (basic & Hb & ->).
  assert (Hfwd : ∀ x, residual_forward (RT := ShapeRuntime)
            (ResidualBlock.mk cls cin cout downsample (TBasic basic)) x
          = (out ← BasicBlock_forward (RT := ShapeRuntime) basic x;
             residual ← match downsample with
                        | Some d => Sequential_forward (RT := ShapeRuntime) d x
                        | None => Ok x
                        end;
             iadd_size out residual)).
  { intros x. unfold residual_forward.
    destruct cls; unfold ResidualBlock_forward, ResNeXtBlock_forward;
      cbn [ResidualBlock.cls ResidualBlock.block ResidualBlock.downsample Transform_forward].
    all: destruct (BasicBlock_forward basic x) as [out|]; cbn [mbind result_bind]; [|done].
    all: destruct downsample as [d|]; [rewrite Sequential_bool_forward|].
    all: try (destruct (Sequential_forward d x); cbn [mbind result_bind]; [|done]).
    all: cbn [iadd relu ShapeRuntime mbind result_bind].
    all: by match goal with |- context [iadd_size ?a ?b] => destruct (iadd_size a b) end. }
  split; intros Hc Hne; rewrite Hfwd.
  - subst cout. rewrite (bool_decide_false (cin ≠ cin)) in Hd, Hb by tauto.
    simpl in Hd. apply M_ret_inv in Hd as [-> ->].
    pose proof (BasicBlock_shape _ _ _ _ _ _ _ B H W Hb) as Hs. simpl in Hs.
    rewrite !Z.div_1_r in Hs. replace (H - 1 + 1) with H in Hs by lia.
    replace (W - 1 + 1) with W in Hs by lia.
    rewrite Hs by (done || lia). cbn [mbind result_bind]. apply iadd_size_same.
  - rewrite (bool_decide_true (cin ≠ cout)) in Hd, Hb by done.
    simpl in Hd. inv_init.
    pose proof (BasicBlock_shape _ _ _ _ _ _ _ B H W Hb) as Hs. simpl in Hs.
    rewrite Hs by (done || lia). cbn [mbind result_bind].
    rewrite (conv_bn_shape _ _ _ _ _ _ _ _ _ _ _ _ _ _
               (conv_out_1x1 H 2 ltac:(lia) HH) (conv_out_1x1 W 2 ltac:(lia) HW)) by done.
    cbn [mbind result_bind]. apply iadd_size_same.
Qed.

Lemma SqueezeExcitationBlock_shape (C : Z) (reduction_ratio : option Z) (st st' : registry)
    (self : SqueezeExcitationBlock.t) (B H W : Z) :
  SqueezeExcitationBlock_init C reduction_ratio st = Ok (self, st') →
  0 < B → 0 < C → 0 < H → 0 < W →
  SqueezeExcitationBlock_forward (RT := ShapeRuntime) self [B; C; H; W] = Ok [B; C; 1; 1].
Proof.
  intros Hinit HB HC HH HW.
  rewrite SqueezeExcitationBlock_init_eq in Hinit.
  destruct (_ =? 0); [done|]. destruct (_ || _); [done|].
  injection Hinit as <- _.
  unfold SqueezeExcitationBlock_forward. cbn [size ShapeRuntime id].
  cbn [SqueezeExcitationBlock.block Sequential_forward Layer_forward].
  cbn [adaptive_avg_pool2d ShapeRuntime]. unfold adaptive_avg_pool2d_size.
  destruct (Z.ltb_spec 0 C), (Z.ltb_spec 0 H), (Z.ltb_spec 0 W); try lia.
  cbn [andb mbind result_bind fst snd].
  unfold Flatten_forward, size0. cbn [size view ShapeRuntime id mbind result_bind].
  rewrite view_size_flatten by done.
  cbn [linear relu sigmoid ShapeRuntime id mbind result_bind]. unfold linear_size.
  cbn [last removelast app Linear.in_features Linear.out_features numel foldr].
  rewrite !Z.mul_1_r, bool_decide_true by done.
  cbn [mbind result_bind last removelast app]. rewrite bool_decide_true by done.
  cbn [mbind result_bind last removelast app].
  apply view_size_known.
  - repeat constructor; lia.
  - simpl. lia.
Qed.

Lemma ResidualBlock_init_default_inv (cls : residual_class) (cin cout : Z)
    (st st' : registry) (self : ResidualBlock.t) :
  ResidualBlock_init_as cls cin cout None st = Ok (self, st') →
  ∃ downsample basic,
    self = ResidualBlock.mk cls cin cout downsample (TBasic basic)
    ∧ (cin = cout → downsample = None)
    ∧ (cin ≠ cout →
         downsample
         = Some [LConv2d (Conv2d.mk cin cout (1, 1) (2, 2) (0, 0) 1 false (next st));
                 LBatchNorm2d (BatchNorm2d.mk cout true (S (next st)))]).
Proof.
  intros Hinit. unfold ResidualBlock_init_as in Hinit.
  apply M_bind_inv in Hinit as (downsample & st1 & Hd & Hinit).
  apply M_bind_inv in Hinit as (block & st2 & Hb & Hinit).
  apply M_ret_inv in Hinit as [-> ->].
  apply M_fmap_inv in Hb as (basic & Hb & ->).
  exists downsample, basic. split; [done|]. split; intros Hc.
  - rewrite (bool_decide_false (cin ≠ cout)) in Hd by tauto.
    simpl in Hd. by apply M_ret_inv in Hd as [-> _].
  - rewrite (bool_decide_true (cin ≠ cout)) in Hd by done.
    simpl in Hd. by inv_init.
Qed.

Lemma SE_ResModule_shape (cls : residual_class) (cin cout : Z) (reduction_ratio : option Z)
    (st st1 st2 : registry) (block : ResidualBlock.t) (self : SE_ResModule.t) (B H W : Z) :
  ResidualBlock_init_as cls cin cout None st = Ok (block, st1) →
  SE_ResModule_init block reduction_ratio st1 = Ok (self, st2) →
  0 < B → 0 < cout → 1 ≤ H → 1 ≤ W →
  (cin = cout → B * H * W ≠ 1 →
     SE_ResModule_forward (RT := ShapeRuntime) self [B; cin; H; W] = Ok [B; cout; H; W])
  ∧ (cin ≠ cout → B * ((H - 1) / 2 + 1) * ((W - 1) / 2 + 1) ≠ 1 →
       SE_ResModule_forward (RT := ShapeRuntime) self [B; cin; H; W]
       = Ok [B; cout; (H - 1) / 2 + 1; (W - 1) / 2 + 1]).
Proof.
  intros Hblock Hinit HB HC HH HW.
  destruct (ResidualBlock_shape _ _ _ _ _ _ B H W Hblock HH HW) as [Hsame Hhalf].
  destruct (ResidualBlock_init_default_inv _ _ _ _ _ _ Hblock)
    as (downsample & basic & Hself & Hnone & Hsome).
  unfold SE_ResModule_init in Hinit.
  apply M_bind_inv in Hinit as (se & st3 & Hse & Hinit).
  apply M_ret_inv in Hinit as [-> _].
  subst block. cbn [ResidualBlock.out_channels] in Hse.
  pose proof (halve_bounds H 2 ltac:(lia) HH) as [HH1 _].
  pose proof (halve_bounds W 2 ltac:(lia) HW) as [HW1 _].
  split; intros Hc Hne; unfold SE_ResModule_forward;
    cbn [SE_ResModule.block SE_ResModule.se_block].
  - rewrite Hsame by done. cbn [mbind result_bind].
    rewrite (SqueezeExcitationBlock_shape _ _ _ _ _ B H W Hse) by lia.
    cbn [mbind result_bind mul iadd relu ShapeRuntime]. rewrite mul_size_gate.
    cbn [mbind result_bind ResidualBlock.downsample].
    rewrite (Hnone Hc). cbn [mbind result_bind]. subst cout.
    by rewrite iadd_size_same.
  - rewrite Hhalf by done. cbn [mbind result_bind].
    rewrite (SqueezeExcitationBlock_shape _ _ _ _ _ B _ _ Hse) by lia.
    cbn [mbind result_bind mul iadd relu ShapeRuntime]. rewrite mul_size_gate.
    cbn [mbind result_bind ResidualBlock.downsample].
    rewrite (Hsome Hc).
    rewrite (conv_bn_shape _ _ _ _ _ _ _ _ _ _ _ _ _ _
               (conv_out_1x1 H 2 ltac:(lia) HH) (conv_out_1x1 W 2 ltac:(lia) HW)) by done.
    cbn [mbind result_bind]. by rewrite iadd_size_same.
Qed.

(** ** Sizes through the encoder stacks *)



Lemma stem_shape (st st' : registry) (stage : Stage) (B H W : Z) :
  stem st = Ok (stage, st') → 1 ≤ H → 1 ≤ W →
  Stage_forward (RT := ShapeRuntime) stage [B; 3; H; W] = Ok [B; 3; H; W].
Proof.
  intros Hinit HH HW. unfold stem in Hinit. inv_init.
  cbn [Stage_forward conv2d ShapeRuntime].
  exact (conv2d_size_square _ _ _ _ _ _ _ _ _ _ _ _ _
           (conv_out_1x1_same H HH) (conv_out_1x1_same W HW)).
Qed.

Lemma plain_rule : stage_rule plain.
Proof.
  intros cin cout st stage st' B H W Hinit HB HC HH HW. unfold plain in Hinit.
  apply M_fmap_inv in Hinit as (block & Hblock & ->).
  exact (ResidualBlock_shape _ _ _ _ _ _ B H W Hblock HH HW).
Qed.

Lemma se_plain_rule : stage_rule se_plain.
Proof.
  intros cin cout st stage st' B H W Hinit HB HC HH HW. unfold se_plain in Hinit.
  apply M_bind_inv in Hinit as (block & st1 & Hblock & Hinit).
  apply M_fmap_inv in Hinit as (self & Hself & ->).
  exact (SE_ResModule_shape _ _ _ _ _ _ _ _ _ B H W Hblock Hself HB HC HH HW).
Qed.


Lemma backends_init_members (st : registry) :
  ∃ resnet se_resnet se_resneXt st1 st2 st3,
    Sequential
      [stem; plain 3 64; plain 64 128; plain 128 256; plain 256 256; plain 256 512] st
    = Ok (resnet, st1)
    ∧ Sequential
        [stem; se_plain 3 64; se_plain 64 128; se_plain 128 256; se_plain 256 256;
         se_plain 256 512] st1 = Ok (se_resnet, st2)
    ∧ Sequential
        [stem; se_next 3 64 (Some 1); se_next 64 128 None; se_next 128 256 None;
         se_next 256 256 None; se_next 256 512 None] st2 = Ok (se_resneXt, st3)
    ∧ backends_init st
      = Ok (<["se_resneXt" := se_resneXt]>
              (<["se_resnet" := se_resnet]> (<["resnet" := resnet]> ∅)), st3).
Proof.
  destruct (Sequential
    [stem; plain 3 64; plain 64 128; plain 128 256; plain 256 256; plain 256 512] st)
    as [[resnet st1]|e] eqn:E1; [|vm_compute in E1; done].
  destruct (Sequential
      [stem; se_plain 3 64; se_plain 64 128; se_plain 128 256; se_plain 256 256;
       se_plain 256 512] st1) as [[se_resnet st2]|e] eqn:E2; [|vm_compute in E2; done].
  destruct (Sequential
    [stem; se_next 3 64 (Some 1); se_next 64 128 None; se_next 128 256 None;
     se_next 256 256 None; se_next 256 512 None] st2)
    as [[se_resneXt st3]|e] eqn:E3; [|vm_compute in E3; done].
  exists resnet, se_resnet, se_resneXt, st1, st2, st3.
  split; [done|]. split; [done|]. split; [done|].
  unfold backends_init.
  rewrite (M_bind_Ok _ _ _ _ _ E1), (M_bind_Ok _ _ _ _ _ E2), (M_bind_Ok _ _ _ _ _ E3).
  reflexivity.
Qed.





(** ** The ResNeXt block and the se_resneXt stack *)

Lemma BottleneckBlock_shape_fails (cin cout : Z) (stride groups mid : option Z)
    (st st' : registry) (self : BottleneckBlock.t) (s : list Z) :
  BottleneckBlock_init cin cout stride groups mid st = Ok (self, st') →
  default (cin / 2) mid ≠ cout →
  BottleneckBlock_forward (RT := ShapeRuntime) self s = Err TorchError.
Proof.
  intros Hinit Hne.
  apply BottleneckBlock_init_inv in Hinit
    as (c1 & b1 & c2 & b2 & c3 & b3 & -> & -> & -> & _).
  unfold BottleneckBlock_forward.
  cbn [BottleneckBlock.conv1 Sequential_forward Layer_forward conv2d batch_norm ShapeRuntime].
  destruct (conv2d_size_cases
              (Conv2d.mk cin (default (cin / 2) mid) (1, 1) (1, 1) (0, 0) 1 false (next st)) s)
    as [->|(pre & h & w & -> & [->|[b ->]])]; cbn [mbind result_bind app]; [done..|].
  unfold batch_norm_size. cbn [Conv2d.out_channels BatchNorm2d.num_features].
  by rewrite bool_decide_false.
Qed.

Lemma ResNeXtBlock_shape_fails (cin cout : Z) (cardinality : option Z) (st st' : registry)
    (self : ResidualBlock.t) (s : list Z) :
  ResNeXtBlock_init cin cout cardinality st = Ok (self, st') →
  cin / 2 ≠ cout →
  residual_forward (RT := ShapeRuntime) self s = Err TorchError.
Proof.
  unfold ResNeXtBlock_init. intros H Hne.
  apply M_bind_inv in H as (mid & st0 & Hmid & H).
  apply lift_inv in Hmid as [Hmid ->]. apply floordiv_inv in Hmid as [_ ->].
  apply M_bind_inv in H as (stride & st0 & Hs & H).
  apply lift_inv in Hs as [Hs ->]. apply floordiv_inv in Hs as [_ ->].
  apply M_bind_inv in H as (bottleneck & st1 & Hb & H).
  unfold ResidualBlock_init_as in H.
  apply M_bind_inv in H as (downsample & st2 & _ & H).
  apply M_bind_inv in H as (block & st3 & Hblock & H).
  apply M_ret_inv in Hblock as [-> ->]. apply M_ret_inv in H as [-> ->].
  unfold residual_forward, ResNeXtBlock_forward.
  cbn [ResidualBlock.cls ResidualBlock.block Transform_forward].
  by rewrite (BottleneckBlock_shape_fails _ _ _ _ _ _ _ _ s Hb).
Qed.

(** X9: the forward pass of a [ResNeXtBlock] raises on every input unless
    [Cin // 2 = Cout]: its bottleneck is built with [mid_channels = Cin // 2]
    and normalises the first convolution over [Cout] features. *)
Theorem ResNeXtBlock_forward_fails {RT : TensorRuntime} {lawful : ShapeLawful RT}
    (in_channels out_channels : Z) (cardinality : option Z) (st st' : registry)
    (self : ResidualBlock.t) (X : Tensor) :
  ResNeXtBlock_init in_channels out_channels cardinality st = Ok (self, st') →
  in_channels / 2 ≠ out_channels →
  residual_forward self X = Err TorchError.
Proof.
  intros Hinit Hne. apply size_Err. rewrite size_residual_forward.
  by apply (ResNeXtBlock_shape_fails _ _ _ _ _ _ _ Hinit).
Qed.

Lemma ResNeXtBlock_forward_fails_witness :
  ∃ self st',
    ResNeXtBlock_init 64 128 None (Registry 0 ∅) = Ok (self, st')
    ∧ residual_forward self (input "X" [2; 64; 56; 56]) = Err TorchError.
Proof.
  eexists _, _. split; [vm_compute; reflexivity|].
  eapply (ResNeXtBlock_forward_fails (RT := GraphRuntime) 64 128 None (Registry 0 ∅));
    [vm_compute; reflexivity | done].
Defined.


Lemma Sequential_cons_inv {A} (m : M A) (ms : list (M A)) (st st' : registry) (l : list A) :
  Sequential (m :: ms) st = Ok (l, st') →
  ∃ a l' st1, m st = Ok (a, st1) ∧ Sequential ms st1 = Ok (l', st') ∧ l = a :: l'.
Proof.
  intros H. cbn [Sequential] in H.
  apply M_bind_inv in H as (a & st1 & Ha & H).
  apply M_bind_inv in H as (l' & st2 & Hl & H).
  apply M_ret_inv in H as [-> ->]. by exists a, l', st1.
Qed.

(** X15: the [se_resneXt] stack can be built, and raises on every input:
    its first block is [ResNeXtBlock(3, 64)], whose bottleneck normalises a
    1-channel tensor over 64 features. *)
Theorem se_resneXt_forward_fails {RT : TensorRuntime} {lawful : ShapeLawful RT}
    (st : registry) :
  ∃ backends st' se_resneXt,
    backends_init st = Ok (backends, st')
    ∧ backends !! "se_resneXt" = Some se_resneXt
    ∧ ∀ X : Tensor, Encoder_forward se_resneXt X = Err TorchError.
Proof.
  destruct (backends_init_members st)
    as (resnet & se_resnet & se_resneXt & st1 & st2 & st3 & _ & _ & E & Hinit).
  eexists _, _, se_resneXt. split; [exact Hinit|]. split; [apply lookup_insert_eq|].
  intros X. apply size_Err. rewrite size_Encoder_forward. generalize (size X) as s.
  intros s.
  apply Sequential_cons_inv in E as (s0 & ? & ? & H0 & E & ->).
  apply Sequential_cons_inv in E as (s1 & rest & ? & H1 & _ & ->).
  unfold stem in H0. inv_init.
  unfold se_next in H1. apply M_bind_inv in H1 as (block & ? & Hblock & H1).
  apply M_fmap_inv in H1 as (self & Hself & ->).
  unfold SE_ResModule_init in Hself.
  apply M_bind_inv in Hself as (se & ? & _ & Hself). apply M_ret_inv in Hself as [-> _].
  cbn [Encoder_forward Stage_forward conv2d ShapeRuntime].
  destruct (conv2d_size_cases
              (Conv2d.mk 3 3 (1, 1) (_pair 1) (_pair 0) 1 true (next st2)) s)
    as [->|(pre & h & w & -> & _)]; cbn [mbind result_bind]; [done|].
  unfold SE_ResModule_forward. cbn [SE_ResModule.block].
  by rewrite (ResNeXtBlock_shape_fails 3 64 (Some 1) _ _ _ _ Hblock).
Qed.

Lemma se_resneXt_forward_fails_witness :
  ∃ backends st' se_resneXt,
    backends_init (Registry 0 ∅) = Ok (backends, st')
    ∧ backends !! "se_resneXt" = Some se_resneXt
    ∧ ∀ X : @Tensor GraphRuntime, Encoder_forward se_resneXt X = Err TorchError.
Proof.
  exact (se_resneXt_forward_fails (RT := GraphRuntime) (Registry 0 ∅)).
Defined.

(** ** Forward passes of the layers and blocks in any lawful runtime *)

(** What [view(B, -1)] can return on a tensor whose first extent is [B]. *)
Lemma view_size_flatten_inv (B : Z) (s r : list Z) :
  view_size [B; -1] (B :: s) = Ok r → 0 < B ∧ r = [B; numel s].
Proof.
  intros Hview.
  destruct (Z.lt_trichotomy B 0) as [Hneg|[->|Hpos]].
  - unfold view_size in Hview. destruct (decide (B = -1)) as [->|Hne]; [done|].
    assert (forallb (λ d, -1 <=? d) [B; -1] = false) as Hall.
    { simpl. destruct (Z.leb_spec (-1) B); [lia | done]. }
    by rewrite Hall in Hview.
  - done.
  - rewrite view_size_flatten in Hview by done. by injection Hview as <-.
Qed.

(** X1: whenever [Flatten.forward] returns (it is [Tensor.view], which
    refuses a layout it cannot express without copying), the result is the
    two-dimensional tensor [(B, n)], with [B] the first extent of the input
    and [n] the product of the others, and the number of elements is
    unchanged.  On the tensors the file feeds it, it does return:
    [AdaptiveAvgPool2d((1, 1))] followed by [Flatten] maps a non-empty
    [(B, C, H, W)] to [(B, C)]. *)
Theorem Flatten_forward_size {RT : TensorRuntime} {lawful : ShapeLawful RT}
    (input : Tensor) (B : Z) (s : list Z) :
  size input = B :: s →
  (∀ Y, Flatten_forward input = Ok Y →
     size Y = [B; numel s] ∧ numel (size Y) = numel (size input))
  ∧ (∀ C H W, s = [C; H; W] → 0 < B → 0 < C → 0 < H → 0 < W →
       size <$> Sequential_forward [LAdaptiveAvgPool2d (1, 1); LFlatten] input
       = Ok [B; C]).
Proof.
  intros Hs. split.
  - intros Y HY.
    assert (Hsize : size <$> Flatten_forward input = Ok (size Y)) by by rewrite HY.
    rewrite size_Flatten_forward, Hs in Hsize. unfold Flatten_forward, size0 in Hsize.
    cbn [size view ShapeRuntime id mbind result_bind] in Hsize.
    apply view_size_flatten_inv in Hsize as [_ ->].
    split; [done|]. rewrite Hs. unfold numel. simpl. lia.
  - intros C H W -> HB HC HH HW. rewrite size_Sequential_forward, Hs.
    cbn [Sequential_forward Layer_forward adaptive_avg_pool2d ShapeRuntime].
    unfold adaptive_avg_pool2d_size.
    destruct (Z.ltb_spec 0 C), (Z.ltb_spec 0 H), (Z.ltb_spec 0 W); try lia.
    cbn [andb mbind result_bind fst snd].
    unfold Flatten_forward, size0. cbn [size view ShapeRuntime id mbind result_bind].
    rewrite view_size_flatten by done.
    cbn [mbind result_bind numel foldr]. by rewrite !Z.mul_1_r.
Qed.

Lemma Flatten_forward_size_witness :
  size <$> Sequential_forward [LAdaptiveAvgPool2d (1, 1); LFlatten]
             (input "X" [2; 512; 7; 7])
  = Ok [2; 512].
Proof.
  apply (proj2 (Flatten_forward_size (RT := GraphRuntime) (input "X" [2; 512; 7; 7])
                  2 [512; 7; 7] eq_refl) 512 7 7);
    [reflexivity | lia..].
Defined.

(** X2: [Flatten.forward] raises on an input whose first extent is 0: the
    [-1] of [view(0, -1)] cannot be inferred. *)
Theorem Flatten_forward_empty_batch {RT : TensorRuntime} {lawful : ShapeLawful RT}
    (input : Tensor) (s : list Z) :
  size input = 0 :: s → Flatten_forward input = Err TorchError.
Proof.
  intros Hs. apply size_Err. rewrite size_Flatten_forward, Hs.
  unfold Flatten_forward, size0. cbn [size view ShapeRuntime id mbind result_bind].
  reflexivity.
Qed.

Lemma Flatten_forward_empty_batch_witness :
  Flatten_forward (input "X" [0; 512; 1; 1]) = Err TorchError.
Proof.
  apply (Flatten_forward_empty_batch (RT := GraphRuntime) (input "X" [0; 512; 1; 1])
           [512; 1; 1]).
  reflexivity.
Defined.

Lemma SqueezeExcitationBlock_forward_size_witness :
  ∃ self st',
    SqueezeExcitationBlock_init 64 None (Registry 0 ∅) = Ok (self, st')
    ∧ size <$> SqueezeExcitationBlock_forward self (input "X" [2; 64; 56; 56])
      = Ok [2; 64; 1; 1].
Proof.
  eexists _, _. split; [vm_compute; reflexivity|].
  eapply (SqueezeExcitationBlock_forward_size (RT := GraphRuntime) 64 None (Registry 0 ∅)
           _ _ (input "X" [2; 64; 56; 56]) 2 56 56);
    [vm_compute; reflexivity | reflexivity | lia..].
Defined.

(** X4: a squeeze-excitation block built over [C] channels raises on a
    non-empty input with another number of channels (the first [Linear]
    layer rejects the flattened pooled tensor). *)
Theorem SqueezeExcitationBlock_forward_channel_mismatch
    {RT : TensorRuntime} {lawful : ShapeLawful RT}
    (C : Z) (reduction_ratio : option Z) (st st' : registry)
    (self : SqueezeExcitationBlock.t) (X : Tensor) (B C' H W : Z) :
  SqueezeExcitationBlock_init C reduction_ratio st = Ok (self, st') →
  size X = [B; C'; H; W] → C' ≠ C → 0 < B → 0 < C' → 0 < H → 0 < W →
  SqueezeExcitationBlock_forward self X = Err TorchError.
Proof.
  intros Hinit HX Hne HB HC HH HW.
  rewrite SqueezeExcitationBlock_init_eq in Hinit.
  destruct (_ =? 0); [done|]. destruct (_ || _); [done|].
  injection Hinit as <- _.
  apply size_Err. rewrite size_SqueezeExcitationBlock_forward, HX.
  unfold SqueezeExcitationBlock_forward. cbn [size ShapeRuntime id].
  cbn [SqueezeExcitationBlock.block Sequential_forward Layer_forward].
  cbn [adaptive_avg_pool2d ShapeRuntime]. unfold adaptive_avg_pool2d_size.
  destruct (Z.ltb_spec 0 C'), (Z.ltb_spec 0 H), (Z.ltb_spec 0 W); try lia.
  cbn [andb mbind result_bind fst snd].
  unfold Flatten_forward, size0. cbn [size view ShapeRuntime id mbind result_bind].
  rewrite view_size_flatten by done.
  cbn [linear relu sigmoid ShapeRuntime id mbind result_bind]. unfold linear_size.
  cbn [last removelast app Linear.in_features Linear.out_features numel foldr].
  rewrite !Z.mul_1_r. by rewrite bool_decide_false.
Qed.

Lemma SqueezeExcitationBlock_forward_channel_mismatch_witness :
  ∃ self st',
    SqueezeExcitationBlock_init 64 None (Registry 0 ∅) = Ok (self, st')
    ∧ SqueezeExcitationBlock_forward self (input "X" [2; 32; 8; 8]) = Err TorchError.
Proof.
  eexists _, _. split; [vm_compute; reflexivity|].
  eapply (SqueezeExcitationBlock_forward_channel_mismatch (RT := GraphRuntime)
           64 None (Registry 0 ∅) _ _ (input "X" [2; 32; 8; 8]) 2 32 8 8);
    [vm_compute; reflexivity | reflexivity | lia..].
Defined.

(** X5: [BasicBlock.forward] maps [(B, Cin, H, W)] to
    [(B, Cout, ceil(H/s), ceil(W/s))] for stride [s], provided the output
    holds more than one value per channel (batch normalisation in training
    mode). *)
Theorem BasicBlock_forward_size {RT : TensorRuntime} {lawful : ShapeLawful RT}
    (in_channels out_channels : Z) (stride groups : option Z) (st st' : registry)
    (self : BasicBlock.t) (X : Tensor) (B H W : Z) :
  BasicBlock_init in_channels out_channels stride groups st = Ok (self, st') →
  size X = [B; in_channels; H; W] →
  0 < default 1 stride → 1 ≤ H → 1 ≤ W →
  B * ((H - 1) / default 1 stride + 1) * ((W - 1) / default 1 stride + 1) ≠ 1 →
  size <$> BasicBlock_forward self X
  = Ok [B; out_channels; (H - 1) / default 1 stride + 1; (W - 1) / default 1 stride + 1].
Proof.
  intros Hinit HX Hs HH HW Hne. rewrite size_BasicBlock_forward, HX.
  by apply (BasicBlock_shape _ _ _ _ _ _ _ B H W Hinit).
Qed.

Lemma BasicBlock_forward_size_witness :
  ∃ self st',
    BasicBlock_init 64 128 (Some 2) None (Registry 0 ∅) = Ok (self, st')
    ∧ size <$> BasicBlock_forward self (input "X" [1; 64; 55; 56]) = Ok [1; 128; 28; 28].
Proof.
  eexists _, _. split; [vm_compute; reflexivity|].
  eapply (BasicBlock_forward_size (RT := GraphRuntime) 64 128 (Some 2) None (Registry 0 ∅)
           _ _ (input "X" [1; 64; 55; 56]) 1 55 56);
    [vm_compute; reflexivity | reflexivity | simpl; lia | lia | lia | by vm_compute].
Defined.

Lemma BottleneckBlock_shape (cin cout : Z) (stride groups mid : option Z)
    (st st' : registry) (self : BottleneckBlock.t) (B H W : Z) :
  BottleneckBlock_init cin cout stride groups mid st = Ok (self, st') →
  default (cin / 2) mid = cout →
  0 < default 1 stride → 1 ≤ H → 1 ≤ W → B * H * W ≠ 1 →
  B * ((H - 1) / default 1 stride + 1) * ((W - 1) / default 1 stride + 1) ≠ 1 →
  BottleneckBlock_forward (RT := ShapeRuntime) self [B; cin; H; W]
  = Ok [B; cout; (H - 1) / default 1 stride + 1; (W - 1) / default 1 stride + 1].
Proof.
  intros Hinit Hmid Hs HH HW Hne Hne'.
  apply BottleneckBlock_init_inv in Hinit
    as (c1 & b1 & c2 & b2 & c3 & b3 & -> & -> & -> & -> & -> & -> & ->).
  rewrite Hmid. unfold BottleneckBlock_forward.
  cbn [BottleneckBlock.conv1 BottleneckBlock.conv2 BottleneckBlock.conv3].
  pose proof (halve_bounds H _ Hs HH) as [HH1 _].
  pose proof (halve_bounds W _ Hs HW) as [HW1 _].
  rewrite (conv_bn_relu_shape _ _ _ _ _ _ _ _ _ _ _ _ _ _
             (conv_out_1x1_same H HH) (conv_out_1x1_same W HW)) by done.
  cbn [mbind result_bind].
  rewrite (conv_bn_relu_shape _ _ _ _ _ _ _ _ _ _ _ _ _ _
             (conv_out_3x3 H _ Hs HH) (conv_out_3x3 W _ Hs HW)) by done.
  cbn [mbind result_bind].
  rewrite (conv_bn_shape _ _ _ _ _ _ _ _ _ _ _ _ _ _
             (conv_out_1x1_same _ HH1) (conv_out_1x1_same _ HW1)) by done.
  done.
Qed.

(** X6: when [mid_channels] equals [out_channels] and the stride [s] is
    positive, [BottleneckBlock.forward] succeeds on a non-empty input with
    positive channel counts and maps [(B, Cin, H, W)] to
    [(B, Cout, ceil(H/s), ceil(W/s))]; input and output each have to hold
    more than one value per channel (batch normalisation in training
    mode). *)
Theorem BottleneckBlock_forward_size {RT : TensorRuntime} {lawful : ShapeLawful RT}
    (in_channels out_channels : Z) (stride groups mid_channels : option Z)
    (st st' : registry) (self : BottleneckBlock.t) (X : Tensor) (B H W : Z) :
  BottleneckBlock_init in_channels out_channels stride groups mid_channels st
  = Ok (self, st') →
  default (in_channels / 2) mid_channels = out_channels →
  size X = [B; in_channels; H; W] →
  0 < default 1 stride → 0 < in_channels → 0 < out_channels →
  1 ≤ B → 1 ≤ H → 1 ≤ W → B * H * W ≠ 1 →
  B * ((H - 1) / default 1 stride + 1) * ((W - 1) / default 1 stride + 1) ≠ 1 →
  size <$> BottleneckBlock_forward self X
  = Ok [B; out_channels; (H - 1) / default 1 stride + 1; (W - 1) / default 1 stride + 1].
Proof.
  intros Hinit Hmid HX Hs _ _ _ HH HW Hne Hne'. rewrite size_BottleneckBlock_forward, HX.
  by apply (BottleneckBlock_shape _ _ _ _ _ _ _ _ B H W Hinit).
Qed.

Lemma BottleneckBlock_forward_size_witness :
  ∃ self st',
    BottleneckBlock_init 128 64 (Some 2) (Some 32) None (Registry 0 ∅) = Ok (self, st')
    ∧ size <$> BottleneckBlock_forward self (input "X" [1; 128; 28; 28]) = Ok [1; 64; 14; 14].
Proof.
  eexists _, _. split; [vm_compute; reflexivity|].
  eapply (BottleneckBlock_forward_size (RT := GraphRuntime) 128 64 (Some 2) (Some 32) None
            (Registry 0 ∅) _ _ (input "X" [1; 128; 28; 28]) 1 28 28);
    [vm_compute; reflexivity | reflexivity | reflexivity | simpl; lia | lia | lia
    | lia | lia | lia | by vm_compute | by vm_compute].
Defined.

(** X7: on a non-empty input [(B, Cin, H, W)], [ResidualBlock(Cin, Cout)]
    with the default [BasicBlock] and positive channel counts gives
    [(B, Cout, H, W)] when [Cin = Cout] and [(B, Cout, ceil(H/2), ceil(W/2))]
    when [Cin <> Cout], provided that output holds more than one value per
    channel (batch normalisation in training mode): the transform and the
    shortcut then agree in size, and the in-place addition succeeds. *)
Theorem ResidualBlock_forward_size {RT : TensorRuntime} {lawful : ShapeLawful RT}
    (in_channels out_channels : Z) (st st' : registry)
    (self : ResidualBlock.t) (X : Tensor) (B H W : Z) :
  ResidualBlock_init in_channels out_channels None st = Ok (self, st') →
  size X = [B; in_channels; H; W] →
  0 < in_channels → 0 < out_channels → 1 ≤ B → 1 ≤ H → 1 ≤ W →
  (in_channels = out_channels → B * H * W ≠ 1 →
     size <$> residual_forward self X = Ok [B; out_channels; H; W])
  ∧ (in_channels ≠ out_channels → B * ((H - 1) / 2 + 1) * ((W - 1) / 2 + 1) ≠ 1 →
       size <$> residual_forward self X
       = Ok [B; out_channels; (H - 1) / 2 + 1; (W - 1) / 2 + 1]).
Proof.
  intros Hinit HX _ _ _ HH HW.
  destruct (ResidualBlock_shape _ _ _ _ _ _ B H W Hinit HH HW) as [Hsame Hhalf].
  split; intros Hc Hne; rewrite size_residual_forward, HX; auto.
Qed.

Lemma ResidualBlock_forward_size_witness :
  ∃ self st',
    ResidualBlock_init 64 128 None (Registry 0 ∅) = Ok (self, st')
    ∧ size <$> residual_forward self (input "X" [1; 64; 57; 56]) = Ok [1; 128; 29; 28].
Proof.
  eexists _, _. split; [vm_compute; reflexivity|].
  refine (proj2 (ResidualBlock_forward_size (RT := GraphRuntime) 64 128
                   (Registry 0 ∅) _ _ (input "X" [1; 64; 57; 56]) 1 57 56
                   _ _ _ _ _ _ _) _ _);
    first [by vm_compute | lia].
Defined.

(** X11: on a non-empty input [(B, Cin, H, W)],
    [SE_ResModule(ResidualBlock(Cin, Cout))] with positive channel counts
    gives [(B, Cout, H, W)] when [Cin = Cout] and
    [(B, Cout, ceil(H/2), ceil(W/2))] when [Cin <> Cout], provided that
    output holds more than one value per channel (batch normalisation in
    training mode): the [(B, Cout, 1, 1)] gate is broadcast over the block's
    output, and the shortcut has the same size. *)
Theorem SE_ResModule_forward_size {RT : TensorRuntime} {lawful : ShapeLawful RT}
    (in_channels out_channels : Z) (reduction_ratio : option Z)
    (st st1 st2 : registry) (block : ResidualBlock.t) (self : SE_ResModule.t)
    (X : Tensor) (B H W : Z) :
  ResidualBlock_init in_channels out_channels None st = Ok (block, st1) →
  SE_ResModule_init block reduction_ratio st1 = Ok (self, st2) →
  size X = [B; in_channels; H; W] →
  0 < in_channels → 0 < out_channels → 1 ≤ B → 1 ≤ H → 1 ≤ W →
  (in_channels = out_channels → B * H * W ≠ 1 →
     size <$> SE_ResModule_forward self X = Ok [B; out_channels; H; W])
  ∧ (in_channels ≠ out_channels → B * ((H - 1) / 2 + 1) * ((W - 1) / 2 + 1) ≠ 1 →
       size <$> SE_ResModule_forward self X
       = Ok [B; out_channels; (H - 1) / 2 + 1; (W - 1) / 2 + 1]).
Proof.
  intros Hblock Hinit HX _ HC HB HH HW.
  destruct (SE_ResModule_shape _ _ _ _ _ _ _ _ _ B H W Hblock Hinit
              ltac:(lia) HC HH HW) as [Hsame Hhalf].
  split; intros Hc Hne; rewrite size_SE_ResModule_forward, HX; auto.
Qed.

Lemma SE_ResModule_forward_size_witness :
  ∃ block st1 self st2,
    ResidualBlock_init 256 256 None (Registry 0 ∅) = Ok (block, st1)
    ∧ SE_ResModule_init block None st1 = Ok (self, st2)
    ∧ size <$> SE_ResModule_forward self (input "X" [1; 256; 28; 28]) = Ok [1; 256; 28; 28].
Proof.
  eexists _, _, _, _. split; [vm_compute; reflexivity|]. split; [vm_compute; reflexivity|].
  refine (proj1 (SE_ResModule_forward_size (RT := GraphRuntime) 256 256
                   None (Registry 0 ∅) _ _ _ _ (input "X" [1; 256; 28; 28]) 1 28 28
                   _ _ _ _ _ _ _ _) _ _);
    first [by vm_compute | lia].
Defined.

(** ** When a ResNeXt block can be built *)

Lemma is_Ok_bind {A B} (m : M A) (k : A → M B) (st : registry) :
  is_Ok (m st) = true → (∀ a st1, is_Ok (k a st1) = true) → is_Ok ((m ≫= k) st) = true.
Proof.
  intros Hm Hk. unfold mbind, M_bind. destruct (m st) as [[a st1]|e]; [apply Hk | done].
Qed.

Lemma lift_bind {A B} (v : A) (k : A → M B) (st : registry) :
  (lift (Ok v) ≫= k) st = k v st.
Proof. reflexivity. Qed.

Lemma is_Ok_Conv2d_init (i o : Z) (k s p : Z * Z) (g : Z) (bias : bool) (st : registry) :
  0 < g → i `mod` g = 0 → o `mod` g = 0 → 0 ≤ o → 0 ≤ i / g → 0 ≤ k.1 → 0 ≤ k.2 →
  is_Ok (Conv2d_init i o k s p g bias st) = true.
Proof.
  intros Hg Hi Ho Ho' Hi' Hk1 Hk2. unfold Conv2d_init.
  destruct (Z.leb_spec g 0); [lia|]. rewrite Hi, Ho. cbn [Z.eqb negb orb].
  by destruct (Z.ltb_spec o 0), (Z.ltb_spec (i / g) 0), (Z.ltb_spec k.1 0),
    (Z.ltb_spec k.2 0); try lia.
Qed.

Lemma is_Ok_BatchNorm2d_init (n : Z) (st : registry) :
  0 ≤ n → is_Ok (BatchNorm2d_init n st) = true.
Proof.
  intros Hn. unfold BatchNorm2d_init. by destruct (Z.ltb_spec n 0); [lia|].
Qed.

Lemma Conv2d_init_nonneg i o k s p g bias st c st' :
  Conv2d_init i o k s p g bias st = Ok (c, st') → 0 ≤ o ∧ 0 ≤ i / g.
Proof.
  unfold Conv2d_init.
  destruct (_ || _ || _) eqn:E1; [done|].
  destruct (_ || _ || _ || _) eqn:E2; [done|]. intros _.
  repeat (apply orb_false_elim in E2 as [E2 ?]). lia.
Qed.

(** Side conditions of a 1x1, one-group convolution and of the other layers. *)
Ltac layer_ok :=
  first
    [ apply is_Ok_BatchNorm2d_init; lia
    | apply is_Ok_Conv2d_init; cbn [fst snd _pair];
        first [ done | lia | apply Z.mod_1_r | rewrite Z.div_1_r; lia
              | apply Z.div_pos; lia ] ].

(** The conditions under which the model builds a ResNeXt block. *)
Lemma ResNeXtBlock_init_is_Ok (in_channels out_channels : Z) (cardinality : option Z)
    (st : registry) :
  is_Ok (ResNeXtBlock_init in_channels out_channels cardinality st) = true
  ↔ 0 ≤ in_channels ∧ 0 < out_channels ∧ 0 < default 32 cardinality
    ∧ (in_channels / 2) `mod` default 32 cardinality = 0.
Proof.
  split.
  - destruct (ResNeXtBlock_init _ _ _ st) as [[self st']|e] eqn:Hinit; [intros _|done].
    unfold ResNeXtBlock_init in Hinit.
    apply M_bind_inv in Hinit as (mid & st0 & Hmid & H).
    apply lift_inv in Hmid as [Hmid ->]. apply floordiv_inv in Hmid as [_ ->].
    apply M_bind_inv in H as (stride & st0 & Hs & H).
    apply lift_inv in Hs as [Hs ->]. apply floordiv_inv in Hs as [Hout ->].
    apply M_bind_inv in H as (bottleneck & st1 & Hb & _).
    unfold BottleneckBlock_init in Hb.
    apply M_bind_inv in Hb as (c1 & ? & Hc1 & Hb).
    apply M_bind_inv in Hb as (b1 & ? & Hb1 & Hb).
    apply M_bind_inv in Hb as (c2 & ? & Hc2 & _).
    pose proof (Conv2d_init_nonneg _ _ _ _ _ _ _ _ _ _ Hc1) as [_ Hin].
    rewrite Z.div_1_r in Hin.
    apply BatchNorm2d_init_inv in Hb1 as (_ & _ & Hout').
    apply Conv2d_init_inv in Hc2 as (_ & _ & Hcard & Hdiv & _).
    split_and!; [done | lia | done | done].
  - intros (Hin & Hout & Hcard & Hdiv).
    assert (0 ≤ in_channels / 2) by (apply Z.div_pos; lia).
    unfold ResNeXtBlock_init.
    assert (floordiv in_channels 2 = Ok (in_channels / 2)) as -> by done.
    assert (floordiv in_channels out_channels = Ok (in_channels / out_channels)) as ->.
    { unfold floordiv. by destruct (Z.eqb_spec out_channels 0); [lia|]. }
    rewrite !lift_bind.
    apply is_Ok_bind.
    { unfold BottleneckBlock_init. cbn [default from_option id].
      repeat (apply is_Ok_bind; [layer_ok | intros ? ?]). done. }
    intros bottleneck ?. unfold ResidualBlock_init_as.
    apply is_Ok_bind; [|intros ? ?; by apply is_Ok_bind].
    case_bool_decide; [|done].
    repeat (apply is_Ok_bind; [layer_ok | intros ? ?]). done.
Qed.

(** X8: [ResNeXtBlock(Cin, Cout, cardinality)] raises at construction when
    [Cout = 0] ([ZeroDivisionError], from the stride [Cin // Cout]), when
    [Cin] or [Cout] is negative, when [cardinality] is not positive, and when
    [cardinality] does not divide [Cin // 2] (the width of the grouped 3x3
    convolution).  For the widths the file uses, [2 <= Cin <= 512] and
    [1 <= Cout <= 512], these are the only obstacles: a positive
    [cardinality] that divides [Cin // 2] gives a block. *)
Theorem ResNeXtBlock_init_conditions (in_channels out_channels : Z)
    (cardinality : option Z) (st : registry) :
  let c := default 32 cardinality in
  (out_channels = 0 →
     ResNeXtBlock_init in_channels out_channels cardinality st = Err ZeroDivisionError)
  ∧ (in_channels < 0 ∨ out_channels < 0 ∨ c ≤ 0 ∨ (in_channels / 2) `mod` c ≠ 0 →
       is_Ok (ResNeXtBlock_init in_channels out_channels cardinality st) = false)
  ∧ (2 ≤ in_channels ≤ 512 → 1 ≤ out_channels ≤ 512 →
     0 < c → (in_channels / 2) `mod` c = 0 →
       is_Ok (ResNeXtBlock_init in_channels out_channels cardinality st) = true).
Proof.
  intros c. subst c. split; [|split].
  - intros ->. unfold ResNeXtBlock_init, floordiv. cbn [Z.eqb]. reflexivity.
  - intros Hbad.
    destruct (is_Ok (ResNeXtBlock_init in_channels out_channels cardinality st)) eqn:E;
      [|done].
    apply ResNeXtBlock_init_is_Ok in E as (? & ? & ? & ?).
    destruct Hbad as [?|[?|[?|?]]]; first [lia | done].
  - intros [? ?] [? ?] Hc Hdiv. apply ResNeXtBlock_init_is_Ok.
    split_and!; first [lia | done].
Qed.

(** [ResNeXtBlock(3, 64)] is refused with the default cardinality, since 32
    does not divide [3 // 2 = 1]. *)
Lemma ResNeXtBlock_init_conditions_witness :
  is_Ok (ResNeXtBlock_init 3 64 None (Registry 0 ∅)) = false.
Proof.
  apply (ResNeXtBlock_init_conditions 3 64 None (Registry 0 ∅)).
  right; right; right. by vm_compute.
Defined.

(** ** The classifier built over a supplied encoder *)

Lemma for_each_overwrite (how : init_kind) (l : list nat) (st : registry) :
  for_each (overwrite how) l st
  = Ok ((), Registry (next st) (foldl (λ m p, <[p := how]> m) (reinit st) l)).
Proof.
  revert st. induction l as [|p l IH]; intros [n m]; [done|].
  cbn [for_each]. unfold mbind, M_bind. cbn [overwrite next reinit].
  by rewrite IH.
Qed.

Lemma foldl_insert_lookup (how : init_kind) (l : list nat) (m : gmap nat init_kind)
    (p : nat) :
  foldl (λ m p, <[p := how]> m) m l !! p = if decide (p ∈ l) then Some how else m !! p.
Proof.
  revert m. induction l as [|q l IH]; intros m; cbn [foldl].
  - rewrite decide_False; [done | apply not_elem_of_nil].
  - rewrite IH. destruct (decide (p ∈ l)) as [Hin|Hin].
    + rewrite decide_True; [done | by apply elem_of_cons; right].
    + destruct (decide (p = q)) as [->|Hne].
      * rewrite decide_True; [apply lookup_insert_eq | by apply elem_of_cons; left].
      * rewrite decide_False; [by rewrite lookup_insert_ne|].
        by intros [?|?]%elem_of_cons.
Qed.

Lemma object_classifier_init_supplied (loadable : string → bool)
    (backends : gmap string (list Stage)) (encoder : list Stage)
    (decoderFile : option string) (st : registry) :
  object_classifier_init loadable backends (Some encoder) decoderFile st
  = let how :=
      match decoderFile with
      | None => Some (NormalInit 0 (1 # 100))
      | Some file => if loadable file then Some (LoadedFrom file) else None
      end in
    match how with
    | Some how =>
        Ok (object_classifier.mk encoder (decoder_layers (next st)),
            Registry (5 + next st)
              (foldl (λ m p, <[p := how]> m) (reinit st) (seq (next st) 5)))
    | None => Err TorchError
    end.
Proof.
  unfold object_classifier_init.
  unfold mbind at 1, M_bind at 1, mret at 1, M_ret at 1.
  unfold Linear_init. cbn [Z.ltb Z.compare orb].
  unfold mbind, M_bind, new_parameters, mret, M_ret. cbn [next reinit].
  rewrite bool_decide_false by done.
  destruct decoderFile as [file|].
  - unfold load_state_dict. destruct (loadable file); [|done].
    rewrite for_each_overwrite. reflexivity.
  - unfold init_decoder_weights, normal_. rewrite for_each_overwrite. reflexivity.
Qed.

(** X16: [object_classifier(encoder)] with a supplied encoder and no decoder
    file always succeeds: the encoder is kept as it is, the decoder owns
    five new parameter groups, exactly these are drawn from N(0, 0.01), and
    no other parameter (the encoder's in particular) is re-initialised. *)
Theorem object_classifier_init_keeps_encoder (loadable : string → bool)
    (backends : gmap string (list Stage)) (encoder : list Stage) (st : registry) :
  ∃ self st',
    object_classifier_init loadable backends (Some encoder) None st = Ok (self, st')
    ∧ object_classifier.encoder self = encoder
    ∧ Sequential_parameters (object_classifier.decoder self) = seq (next st) 5
    ∧ next st' = (5 + next st)%nat
    ∧ (∀ p, p ∈ seq (next st) 5 → reinit st' !! p = Some (NormalInit 0 (1 # 100)))
    ∧ (∀ p, p ∉ seq (next st) 5 → reinit st' !! p = reinit st !! p).
Proof.
  rewrite object_classifier_init_supplied. cbn zeta iota.
  eexists _, _. split; [reflexivity|]. cbn [object_classifier.encoder next reinit].
  split; [done|]. split; [done|]. split; [done|].
  split; intros p Hp; rewrite foldl_insert_lookup.
  - by rewrite decide_True.
  - by rewrite decide_False.
Qed.

(** X17: with a decoder file, construction raises when the file cannot be
    loaded; otherwise the decoder's parameters are the loaded ones and
    nothing else is touched. *)
Theorem object_classifier_init_decoder_file (loadable : string → bool)
    (backends : gmap string (list Stage)) (encoder : list Stage) (file : string)
    (st : registry) :
  (loadable file = false →
     object_classifier_init loadable backends (Some encoder) (Some file) st = Err TorchError)
  ∧ (loadable file = true →
       ∃ self st',
         object_classifier_init loadable backends (Some encoder) (Some file) st
         = Ok (self, st')
         ∧ object_classifier.encoder self = encoder
         ∧ (∀ p, p ∈ Sequential_parameters (object_classifier.decoder self) →
              reinit st' !! p = Some (LoadedFrom file))
         ∧ (∀ p, p ∉ Sequential_parameters (object_classifier.decoder self) →
              reinit st' !! p = reinit st !! p)).
Proof.
  rewrite object_classifier_init_supplied. cbn zeta iota.
  split; intros ->; [done|].
  eexists _, _. split; [reflexivity|]. cbn [object_classifier.encoder next reinit].
  split; [done|].
  change (Sequential_parameters (object_classifier.decoder _)) with (seq (next st) 5).
  split; intros p Hp; rewrite foldl_insert_lookup.
  - by rewrite decide_True.
  - by rewrite decide_False.
Qed.

Lemma object_classifier_init_decoder_file_witness :
  ∃ self st',
    object_classifier_init (λ _, true) ∅ (Some []) (Some "decoder.pth") (Registry 0 ∅)
    = Ok (self, st')
    ∧ object_classifier.encoder self = []
    ∧ (∀ p, p ∈ Sequential_parameters (object_classifier.decoder self) →
         reinit st' !! p = Some (LoadedFrom "decoder.pth"))
    ∧ (∀ p, p ∉ Sequential_parameters (object_classifier.decoder self) →
         reinit st' !! p = reinit (Registry 0 ∅) !! p).
Proof.
  apply (proj2 (object_classifier_init_decoder_file (λ _, true) ∅ [] "decoder.pth"
                  (Registry 0 ∅))).
  reflexivity.
Defined.

Lemma decode_size_witness :
  ∃ self st',
    object_classifier_init (λ _, false) ∅ (Some []) None (Registry 0 ∅) = Ok (self, st')
    ∧ ∃ Z, decode self (input "Y" [2; 512; 7; 7]) = Ok (sigmoid Z) ∧ size Z = [2; 1].
Proof.
  eexists _, _. split; [vm_compute; reflexivity|].
  eapply (decode_size (RT := GraphRuntime) (λ _, false) ∅ (Some []) None (Registry 0 ∅)
            _ _ (input "Y" [2; 512; 7; 7]) 2 7 7);
    first [by vm_compute | lia].
Defined.

Lemma object_classifier_init_decoder (loadable : string → bool)
    (backends : gmap string (list Stage)) (encoder : option (list Stage))
    (decoderFile : option string) (st st' : registry) (self : object_classifier.t) :
  object_classifier_init loadable backends encoder decoderFile st = Ok (self, st') →
  ∃ n, object_classifier.decoder self = decoder_layers n.
Proof.
  intros Hinit. unfold object_classifier_init in Hinit.
  apply M_bind_inv in Hinit as (enc & st0 & _ & Hinit).
  apply M_bind_inv in Hinit as (l1 & ? & H1 & Hinit).
  apply M_bind_inv in Hinit as (l2 & ? & H2 & Hinit).
  apply M_bind_inv in Hinit as (l3 & ? & H3 & Hinit).
  apply M_bind_inv in Hinit as (l4 & ? & H4 & Hinit).
  apply M_bind_inv in Hinit as (l5 & ? & H5 & Hinit).
  apply M_bind_inv in Hinit as (? & ? & _ & Hinit).
  apply M_bind_inv in Hinit as (? & ? & _ & Hinit).
  apply M_ret_inv in Hinit as [-> _].
  inv_init. by exists (next st0).
Qed.

Lemma linear_size_2d (l : Linear.t) (B C : Z) :
  linear_size l [B; C]
  = if bool_decide (C = Linear.in_features l) then Ok [B; Linear.out_features l]
    else Err TorchError.
Proof. reflexivity. Qed.

Lemma decoder_layers_shape (n : nat) (B C h w : Z) :
  0 < B → 0 < C → 0 < h → 0 < w →
  Sequential_forward (RT := ShapeRuntime) (removelast (decoder_layers n)) [B; C; h; w]
  = if bool_decide (C = 512) then Ok [B; 1] else Err TorchError.
Proof.
  intros HB HC Hh Hw. unfold decoder_layers. cbn [removelast].
  cbn [Sequential_forward Layer_forward adaptive_avg_pool2d ShapeRuntime].
  unfold adaptive_avg_pool2d_size.
  destruct (Z.ltb_spec 0 C), (Z.ltb_spec 0 h), (Z.ltb_spec 0 w); try lia.
  cbn [andb mbind result_bind fst snd].
  unfold Flatten_forward, size0. cbn [size view ShapeRuntime id mbind result_bind].
  rewrite view_size_flatten by done.
  cbn [linear relu ShapeRuntime id mbind result_bind numel foldr].
  rewrite !Z.mul_1_r, linear_size_2d. cbn [Linear.in_features Linear.out_features].
  case_bool_decide as HC512; [|done]. reflexivity.
Qed.

(** X19: the decoder raises on a non-empty feature tensor whose channel
    count is not 512. *)
Theorem decode_rejects_other_widths {RT : TensorRuntime} {lawful : ShapeLawful RT}
    (loadable : string → bool) (backends : gmap string (list Stage))
    (encoder : option (list Stage)) (decoderFile : option string) (st st' : registry)
    (self : object_classifier.t) (Y : Tensor) (B C h w : Z) :
  object_classifier_init loadable backends encoder decoderFile st = Ok (self, st') →
  size Y = [B; C; h; w] → C ≠ 512 → 0 < B → 0 < C → 0 < h → 0 < w →
  decode self Y = Err TorchError.
Proof.
  intros Hinit HY HC HB HC' Hh Hw.
  apply object_classifier_init_decoder in Hinit as [n Hn].
  unfold decode. rewrite Hn.
  change (decoder_layers n) with (removelast (decoder_layers n) ++ [LSigmoid]).
  rewrite Sequential_forward_snoc.
  assert (Hs : size <$> Sequential_forward (removelast (decoder_layers n)) Y
               = Err TorchError).
  { rewrite size_Sequential_forward, HY, decoder_layers_shape by done.
    by rewrite bool_decide_false. }
  apply size_Err in Hs. by rewrite Hs.
Qed.

Lemma decode_rejects_other_widths_witness :
  ∃ self st',
    object_classifier_init (λ _, false) ∅ (Some []) None (Registry 0 ∅) = Ok (self, st')
    ∧ decode self (input "Y" [2; 256; 14; 14]) = Err TorchError.
Proof.
  eexists _, _. split; [vm_compute; reflexivity|].
  eapply (decode_rejects_other_widths (RT := GraphRuntime) (λ _, false) ∅ (Some []) None
            (Registry 0 ∅) _ _ (input "Y" [2; 256; 14; 14]) 2 256 14 14);
    first [by vm_compute | lia].
Defined.




(** ** One value per channel: batch normalisation in training mode *)

Lemma batch_norm_size_single (n : Z) (pid : nat) (B H W : Z) :
  B * H * W = 1 →
  batch_norm_size (BatchNorm2d.mk n true pid) [B; n; H; W] = Err TorchError.
Proof.
  intros Hone. unfold batch_norm_size.
  cbn [BatchNorm2d.num_features BatchNorm2d.training].
  rewrite bool_decide_true by done.
  by destruct (Z.eqb_spec (B * H * W) 1).
Qed.

Lemma BasicBlock_shape_single (cin cout : Z) (stride groups : option Z) (st st' : registry)
    (self : BasicBlock.t) (B H W : Z) :
  BasicBlock_init cin cout stride groups st = Ok (self, st') →
  0 < default 1 stride → 1 ≤ H → 1 ≤ W →
  B * ((H - 1) / default 1 stride + 1) * ((W - 1) / default 1 stride + 1) = 1 →
  BasicBlock_forward (RT := ShapeRuntime) self [B; cin; H; W] = Err TorchError.
Proof.
  intros Hinit Hs HH HW Hone. unfold BasicBlock_init in Hinit. inv_init.
  unfold BasicBlock_forward. cbn [BasicBlock.conv1].
  cbn [Sequential_forward Layer_forward conv2d batch_norm ShapeRuntime].
  rewrite (conv2d_size_square _ _ _ _ _ _ _ _ _ _ _ _ _
             (conv_out_3x3 H _ Hs HH) (conv_out_3x3 W _ Hs HW)).
  cbn [mbind result_bind]. by rewrite batch_norm_size_single.
Qed.

Lemma residual_forward_transform_Err {RT : TensorRuntime} (self : ResidualBlock.t)
    (x : Tensor) (e : exn) :
  Transform_forward (ResidualBlock.block self) x = Err e → residual_forward self x = Err e.
Proof.
  intros He. unfold residual_forward.
  destruct (ResidualBlock.cls self); unfold ResidualBlock_forward, ResNeXtBlock_forward;
    by rewrite He.
Qed.

Lemma ResidualBlock_shape_single (cls : residual_class) (cin cout : Z) (st st' : registry)
    (self : ResidualBlock.t) (B H W : Z) :
  ResidualBlock_init_as cls cin cout None st = Ok (self, st') →
  1 ≤ H → 1 ≤ W →
  (cin = cout → B * H * W = 1 →
     residual_forward (RT := ShapeRuntime) self [B; cin; H; W] = Err TorchError)
  ∧ (cin ≠ cout → B * ((H - 1) / 2 + 1) * ((W - 1) / 2 + 1) = 1 →
       residual_forward (RT := ShapeRuntime) self [B; cin; H; W] = Err TorchError).
Proof.
  intros Hinit HH HW. unfold ResidualBlock_init_as in Hinit.
  apply M_bind_inv in Hinit as (downsample & st1 & Hd & Hinit).
  apply M_bind_inv in Hinit as (block & st2 & Hb & Hinit).
  apply M_ret_inv in Hinit as [-> ->].
  apply M_fmap_inv in Hb as (basic & Hb & ->).
  split; intros Hc Hone; apply residual_forward_transform_Err;
    cbn [ResidualBlock.block Transform_forward].
  - rewrite (bool_decide_false (cin ≠ cout)) in Hb by tauto.
    apply (BasicBlock_shape_single _ _ _ _ _ _ _ B H W Hb); [done..|].
    cbn [default]. rewrite !Z.div_1_r. by replace (H - 1 + 1) with H by lia;
      replace (W - 1 + 1) with W by lia.
  - rewrite (bool_decide_true (cin ≠ cout)) in Hb by done.
    by apply (BasicBlock_shape_single _ _ _ _ _ _ _ B H W Hb).
Qed.

Lemma plain_single_rule : stage_single_rule plain.
Proof.
  intros cin cout st stage st' B H W Hinit HH HW. unfold plain in Hinit.
  apply M_fmap_inv in Hinit as (block & Hblock & ->).
  exact (ResidualBlock_shape_single _ _ _ _ _ _ B H W Hblock HH HW).
Qed.

Lemma se_plain_single_rule : stage_single_rule se_plain.
Proof.
  intros cin cout st stage st' B H W Hinit HH HW. unfold se_plain in Hinit.
  apply M_bind_inv in Hinit as (block & st1 & Hblock & Hinit).
  apply M_fmap_inv in Hinit as (self & Hself & ->).
  unfold SE_ResModule_init in Hself.
  apply M_bind_inv in Hself as (se & st3 & Hse & Hself).
  apply M_ret_inv in Hself as [-> _].
  destruct (ResidualBlock_shape_single _ _ _ _ _ _ B H W Hblock HH HW) as [Hsame Hhalf].
  split; intros Hc Hone; cbn [Stage_forward]; unfold SE_ResModule_forward;
    cbn [SE_ResModule.block]; [rewrite Hsame | rewrite Hhalf]; done.
Qed.

Lemma stack_single (mk : Z → Z → M Stage) (st st' : registry) (encoder : list Stage)
    (H W : Z) :
  stage_rule mk → stage_single_rule mk →
  Sequential [stem; mk 3 64; mk 64 128; mk 128 256; mk 256 256; mk 256 512] st
  = Ok (encoder, st') →
  1 ≤ H ≤ 16 → 1 ≤ W ≤ 16 →
  Encoder_forward (RT := ShapeRuntime) encoder [1; 3; H; W] = Err TorchError.
Proof.
  intros Hrule Hsingle Hinit [HH HH'] [HW HW']. cbn [Sequential] in Hinit.
  apply M_bind_inv in Hinit as (s0 & ? & H0 & Hinit).
  apply M_bind_inv in Hinit as (? & ? & Hinit & Hret). apply M_ret_inv in Hret as [-> ->].
  apply M_bind_inv in Hinit as (s1 & ? & H1 & Hinit).
  apply M_bind_inv in Hinit as (? & ? & Hinit & Hret). apply M_ret_inv in Hret as [-> ->].
  apply M_bind_inv in Hinit as (s2 & ? & H2 & Hinit).
  apply M_bind_inv in Hinit as (? & ? & Hinit & Hret). apply M_ret_inv in Hret as [-> ->].
  apply M_bind_inv in Hinit as (s3 & ? & H3 & Hinit).
  apply M_bind_inv in Hinit as (? & ? & Hinit & Hret). apply M_ret_inv in Hret as [-> ->].
  apply M_bind_inv in Hinit as (s4 & ? & H4 & Hinit).
  apply M_bind_inv in Hinit as (? & ? & Hinit & Hret). apply M_ret_inv in Hret as [-> ->].
  apply M_bind_inv in Hinit as (s5 & ? & H5 & Hinit).
  apply M_bind_inv in Hinit as (? & ? & Hinit & Hret). apply M_ret_inv in Hret as [-> ->].
  apply M_ret_inv in Hinit as [-> ->].
  assert (Hb : ∀ k, 0 < k → 1 ≤ (H - 1) / k + 1 ∧ 1 ≤ (W - 1) / k + 1).
  { intros k ?. split; by apply halve_bounds. }
  cbn [Encoder_forward].
  rewrite (stem_shape _ _ _ 1 H W H0) by done. cbn [mbind result_bind].
  destruct (decide (1 * ((H - 1) / 2 + 1) * ((W - 1) / 2 + 1) = 1)) as [Hone|Hne].
  { by rewrite (proj2 (Hsingle _ _ _ _ _ 1 H W H1 HH HW) ltac:(done) Hone). }
  destruct (Hrule _ _ _ _ _ 1 H W H1) as [_ ->]; try lia. cbn [mbind result_bind].
  destruct (Hb 2) as [? ?]; [lia|].
  destruct (decide (1 * ((H - 1) / 4 + 1) * ((W - 1) / 4 + 1) = 1)) as [Hone|Hne'].
  { rewrite (proj2 (Hsingle _ _ _ _ _ 1 ((H - 1) / 2 + 1) ((W - 1) / 2 + 1) H2
                       ltac:(lia) ltac:(lia))); [done.. |].
    rewrite !halve_again by lia. exact Hone. }
  destruct (Hrule _ _ _ _ _ 1 ((H - 1) / 2 + 1) ((W - 1) / 2 + 1) H2) as [_ ->]; try lia.
  2: { rewrite !halve_again by lia. exact Hne'. }
  cbn [mbind result_bind]. rewrite !halve_again by lia. change (2 * 2) with 4.
  destruct (Hb 4) as [? ?]; [lia|].
  destruct (decide (1 * ((H - 1) / 8 + 1) * ((W - 1) / 8 + 1) = 1)) as [Hone|Hne''].
  { rewrite (proj2 (Hsingle _ _ _ _ _ 1 ((H - 1) / 4 + 1) ((W - 1) / 4 + 1) H3
                       ltac:(lia) ltac:(lia))); [done.. |].
    rewrite !halve_again by lia. exact Hone. }
  destruct (Hrule _ _ _ _ _ 1 ((H - 1) / 4 + 1) ((W - 1) / 4 + 1) H3) as [_ ->]; try lia.
  2: { rewrite !halve_again by lia. exact Hne''. }
  cbn [mbind result_bind]. rewrite !halve_again by lia. change (4 * 2) with 8.
  destruct (Hb 8) as [? ?]; [lia|].
  destruct (Hrule _ _ _ _ _ 1 ((H - 1) / 8 + 1) ((W - 1) / 8 + 1) H4) as [-> _]; try lia.
  cbn [mbind result_bind].
  rewrite (proj2 (Hsingle _ _ _ _ _ 1 ((H - 1) / 8 + 1) ((W - 1) / 8 + 1) H5
                    ltac:(lia) ltac:(lia))); [done.. |].
  rewrite !halve_again by lia. change (8 * 2) with 16.
  rewrite !Z.div_small by lia. reflexivity.
Qed.

(** X14: on a single image of at most 16 x 16 the [resnet] and [se_resnet]
    stacks raise: some batch normalisation (in training mode, as the
    modules are built) receives one value per channel. *)
Theorem backend_forward_single_small_fails {RT : TensorRuntime} {lawful : ShapeLawful RT}
    (name : string) (st : registry) (X : Tensor) (H W : Z) :
  name = "resnet" ∨ name = "se_resnet" →
  size X = [1; 3; H; W] → 1 ≤ H ≤ 16 → 1 ≤ W ≤ 16 →
  ∃ backends st' encoder,
    backends_init st = Ok (backends, st')
    ∧ backends !! name = Some encoder
    ∧ Encoder_forward encoder X = Err TorchError.
Proof.
  intros Hname HX HH HW.
  destruct (backends_init_members st)
    as (resnet & se_resnet & se_resneXt & st1 & st2 & st3 & E1 & E2 & _ & Hinit).
  destruct Hname as [->| ->].
  - eexists _, _, resnet. split; [exact Hinit|]. split.
    { rewrite lookup_insert_ne by done. rewrite lookup_insert_ne by done.
      apply lookup_insert_eq. }
    apply size_Err. rewrite size_Encoder_forward, HX.
    exact (stack_single plain _ _ _ H W plain_rule plain_single_rule E1 HH HW).
  - eexists _, _, se_resnet. split; [exact Hinit|]. split.
    { rewrite lookup_insert_ne by done. apply lookup_insert_eq. }
    apply size_Err. rewrite size_Encoder_forward, HX.
    exact (stack_single se_plain _ _ _ H W se_plain_rule se_plain_single_rule E2 HH HW).
Qed.

Lemma backend_forward_single_small_fails_witness :
  ∃ backends st' encoder,
    backends_init (Registry 0 ∅) = Ok (backends, st')
    ∧ backends !! "se_resnet" = Some encoder
    ∧ Encoder_forward encoder (input "X" [1; 3; 16; 16]) = Err TorchError.
Proof.
  apply (backend_forward_single_small_fails (RT := GraphRuntime) "se_resnet" (Registry 0 ∅)
           (input "X" [1; 3; 16; 16]) 16 16); [by right | reflexivity | lia | lia].
Defined.

(** ** A ResNeXt block that halves the channels *)

Lemma halved_ne_1 (B H W s : Z) :
  1 ≤ B → 1 ≤ H → 1 ≤ W → B * ((H - 1) / s + 1) * ((W - 1) / s + 1) ≠ 1 → B * H * W ≠ 1.
Proof.
  intros HB HH HW Hne Hone. assert (B = 1 ∧ H = 1 ∧ W = 1) as (-> & -> & ->) by nia.
  by apply Hne.
Qed.

Lemma ResNeXtBlock_shape (cout : Z) (cardinality : option Z) (st st' : registry)
    (self : ResidualBlock.t) (B H W : Z) :
  ResNeXtBlock_init (2 * cout) cout cardinality st = Ok (self, st') →
  0 < cout → 1 ≤ B → 1 ≤ H → 1 ≤ W →
  B * ((H - 1) / 2 + 1) * ((W - 1) / 2 + 1) ≠ 1 →
  residual_forward (RT := ShapeRuntime) self [B; 2 * cout; H; W]
  = Ok [B; cout; (H - 1) / 2 + 1; (W - 1) / 2 + 1].
Proof.
  unfold ResNeXtBlock_init. intros Hinit HC HB HH HW Hne.
  apply M_bind_inv in Hinit as (mid & st0 & Hmid & Hinit).
  apply lift_inv in Hmid as [Hmid ->]. apply floordiv_inv in Hmid as [_ ->].
  apply M_bind_inv in Hinit as (stride & st0 & Hs & Hinit).
  apply lift_inv in Hs as [Hs ->]. apply floordiv_inv in Hs as [_ ->].
  replace (2 * cout / 2) with cout in Hinit by (rewrite (Z.mul_comm 2 cout), Z.div_mul; lia).
  replace (2 * cout / cout) with 2 in Hinit by (rewrite Z.div_mul; lia).
  apply M_bind_inv in Hinit as (bottleneck & st1 & Hb & Hinit).
  unfold ResidualBlock_init_as in Hinit.
  apply M_bind_inv in Hinit as (downsample & st2 & Hd & Hinit).
  apply M_bind_inv in Hinit as (block & st3 & Hblock & Hinit).
  apply M_ret_inv in Hblock as [-> ->]. apply M_ret_inv in Hinit as [-> ->].
  rewrite (bool_decide_true (2 * cout ≠ cout)) in Hd by lia.
  simpl in Hd. inv_init.
  pose proof (halve_bounds H 2 ltac:(lia) HH) as [HH1 HH2].
  pose proof (halve_bounds W 2 ltac:(lia) HW) as [HW1 HW2].
  unfold residual_forward, ResNeXtBlock_forward.
  cbn [ResidualBlock.cls ResidualBlock.block ResidualBlock.downsample Transform_forward].
  rewrite (BottleneckBlock_shape _ _ _ _ _ _ _ _ B H W Hb);
    [| first [done | cbn [default]; lia | by apply (halved_ne_1 B H W 2)]..].
  cbn [default mbind result_bind]. rewrite Sequential_bool_forward.
  rewrite (conv_bn_shape _ _ _ _ _ _ _ _ _ _ _ _ _ _
             (conv_out_1x1 H 2 ltac:(lia) HH) (conv_out_1x1 W 2 ltac:(lia) HW)) by done.
  cbn [mbind result_bind iadd relu ShapeRuntime]. by rewrite iadd_size_same.
Qed.

(** X10: a [ResNeXtBlock] from [2 * Cout] to [Cout] channels works: its
    stride is 2, like the downsample path's, and [(B, 2 * Cout, H, W)] is
    mapped to [(B, Cout, ceil(H/2), ceil(W/2))]. *)
Theorem ResNeXtBlock_forward_size {RT : TensorRuntime} {lawful : ShapeLawful RT}
    (out_channels : Z) (cardinality : option Z) (st st' : registry)
    (self : ResidualBlock.t) (X : Tensor) (B H W : Z) :
  ResNeXtBlock_init (2 * out_channels) out_channels cardinality st = Ok (self, st') →
  size X = [B; 2 * out_channels; H; W] →
  0 < out_channels → 1 ≤ B → 1 ≤ H → 1 ≤ W →
  B * ((H - 1) / 2 + 1) * ((W - 1) / 2 + 1) ≠ 1 →
  size <$> residual_forward self X
  = Ok [B; out_channels; (H - 1) / 2 + 1; (W - 1) / 2 + 1].
Proof.
  intros Hinit HX HC HB HH HW Hne. rewrite size_residual_forward, HX.
  by apply (ResNeXtBlock_shape _ _ _ _ _ B H W Hinit).
Qed.

Lemma ResNeXtBlock_forward_size_witness :
  ∃ self st',
    ResNeXtBlock_init (2 * 64) 64 None (Registry 0 ∅) = Ok (self, st')
    ∧ size <$> residual_forward self (input "X" [2; 128; 28; 28]) = Ok [2; 64; 14; 14].
Proof.
  eexists _, _. split; [vm_compute; reflexivity|].
  eapply (ResNeXtBlock_forward_size (RT := GraphRuntime) 64 None (Registry 0 ∅) _ _
            (input "X" [2; 128; 28; 28]) 2 28 28);
    [vm_compute; reflexivity | reflexivity | lia | lia | lia | lia | by vm_compute].
Defined.
